(** * Room pollers of ide-agent-kit: watermark tracking and trigger dispatch

    The repository ships two polling scripts that watch the newest message of
    a room and wake a tmux session:

    - the minimal poller (function [poll], module-level [lastSeenId]);
    - the unified poller (functions [pollRoom] and [injectPrompt],
      module-level [lastSeenMessageId]).

    Both are asynchronous JavaScript functions driven by [setInterval].  They
    are embedded here as finite resumption programs ([Proc]): every statement
    of the source that touches the world is one node of the program, and the
    answers of the world (settled promises, outcome of the synchronous file
    write) are supplied by an oracle.  Two semantics are given to the same
    programs: a sequential one ([run], one whole cycle at a time) and an
    event-loop one ([step], where cycles are suspended at their [await]s);
    [run_completes] relates the two.

    Line numbers are those of the file that holds both scripts.  Message ids
    and handles are strings; a watermark is [null] or a string, and the
    scripts' test for "no watermark yet" is JavaScript falsiness. *)

From Stdlib Require Import String Ascii List Bool Arith NArith Lia.
Import ListNotations.
Local Open Scope string_scope.
Local Open Scope list_scope.

(** ** JavaScript string operations used by the pollers

    Strings are byte strings: a JavaScript string is held in its UTF-8
    form, on which [includes], equality and concatenation are those of the
    script.  [toLowerCase] is [String.prototype.toLowerCase] on strings of
    ASCII characters ([ascii_only]), where the method maps [A]..[Z] to
    [a]..[z] and nothing else.  On other strings the method also maps cased
    letters outside ASCII, which this function leaves alone; the statements
    that read a lower-cased value as the one the script computes are
    therefore made for ASCII handles and bodies. *)

Module JsString.

Fixpoint startsWith (s t : string) {struct t} : bool :=
  match t with
  | EmptyString => true
  | String c t' =>
      match s with
      | EmptyString => false
      | String d s' => Ascii.eqb d c && startsWith s' t'
      end
  end.

(** [includes s t] is [s.includes(t)]: [t] occurs in [s] as a substring. *)
Fixpoint includes (s t : string) : bool :=
  startsWith s t ||
  match s with
  | EmptyString => false
  | String _ s' => includes s' t
  end.

Definition lower_ascii (c : ascii) : ascii :=
  let n := nat_of_ascii c in
  if ((65 <=? n)%nat && (n <=? 90)%nat)%bool then ascii_of_nat (n + 32) else c.

Fixpoint toLowerCase (s : string) : string :=
  match s with
  | EmptyString => EmptyString
  | String c s' => String (lower_ascii c) (toLowerCase s')
  end.

(** The characters [toLowerCase] is exact on. *)
Definition is_ascii (c : ascii) : bool := (nat_of_ascii c <? 128)%nat.

Fixpoint ascii_only (s : string) : bool :=
  match s with
  | EmptyString => true
  | String c s' => is_ascii c && ascii_only s'
  end.

(** [v] is [h] up to the case of its letters: both lower-case to the same
    string. *)
Definition same_letters (v h : string) : Prop := toLowerCase v = toLowerCase h.

(** [truthy s]: a string is truthy unless it is empty. *)
Definition truthy (s : string) : bool := negb (s =? "").

End JsString.
Import JsString.

(** ** Data *)

(** A row of the [messages] table as the pollers use it.  [body] may be
    [null] or missing in the payload. *)
Record message := { id : string; body : option string }.

(** The module-level watermark: [null] or a string. *)
Definition watermark := option string.

(** [!lastSeenId]: true for [null] and for the empty string. *)
Definition falsy (w : watermark) : bool :=
  match w with
  | None => true
  | Some s => negb (truthy s)
  end.

(** [msg.id !== lastSeenId]. *)
Definition differs (i : string) (w : watermark) : bool :=
  match w with
  | None => true
  | Some s => negb (i =? s)
  end.

(** The cache file [.poller_cache_<handle>.json]. *)
Inductive file :=
| NoFile
| Garbage
| Cache (lastSeen : watermark).

(** Start-up code of both scripts: the watermark starts as [null] and is
    replaced by the cached field when the file exists and parses. *)
Definition startup (f : file) : watermark :=
  match f with
  | NoFile => None
  | Garbage => None
  | Cache w => w
  end.

Record state := { lastSeenId : watermark; CACHE_FILE : file }.

(** The shell commands handed to [execPromise]. *)
Inductive cmd :=
| HasSession (target : string)
| SendKeysLiteral (target text : string)
| Sleep
| SendKeysEnter (target : string).

(** The console lines of the two scripts. *)
Inductive log :=
| LogPolling
| LogApiError (status : nat)
| LogInjectingTmux
| LogFetchError (msg : string)
| LogErrorFetching (err : string)
| LogInit (w : watermark)
| LogTriggerMatched (body : option string)
| LogIgnored (i : string)
| LogInjectingSession (target : string)
| LogTriggered
| LogUnreachable (target : string)
| LogPollingError (msg : string).

Inductive exn := Error (msg : string).

Definition message_of (e : exn) : string := match e with Error m => m end.

(** The [TypeError] of [msg.body.includes] on a body that is [null].  The
    text is the engine's; for a missing field it names [undefined] in the
    place of [null].  No statement depends on it. *)
Definition cannot_read : exn :=
  Error "Cannot read properties of null (reading 'includes')".

Definition result (A : Type) : Type := (exn + A)%type.

Record response := { ok : bool; status : nat }.

(** The parsed JSON payload: [None] stands for [null] and for any value
    without a positive [length]. *)
Definition rows := option (list message).

Record query := { data : rows; error : option string }.

(** ** Resumption programs *)

Inductive Proc (A : Type) : Type :=
| Ret (a : A)
| Throw (e : exn)
| GetLast (k : watermark -> Proc A)
| SetLast (w : watermark) (k : Proc A)
| WriteFileSync (k : result unit -> Proc A)
| Console (l : log) (k : Proc A)
| AwaitFetch (k : result response -> Proc A)
| AwaitJson (k : result rows -> Proc A)
| AwaitQuery (k : result query -> Proc A)
| AwaitExec (c : cmd) (k : result unit -> Proc A).

Arguments Ret {A} a.
Arguments Throw {A} e.
Arguments GetLast {A} k.
Arguments SetLast {A} w k.
Arguments WriteFileSync {A} k.
Arguments Console {A} l k.
Arguments AwaitFetch {A} k.
Arguments AwaitJson {A} k.
Arguments AwaitQuery {A} k.
Arguments AwaitExec {A} c k.

Fixpoint bind {A B : Type} (m : Proc A) (f : A -> Proc B) : Proc B :=
  match m with
  | Ret a => f a
  | Throw e => Throw e
  | GetLast k => GetLast (fun w => bind (k w) f)
  | SetLast w k => SetLast w (bind k f)
  | WriteFileSync k => WriteFileSync (fun r => bind (k r) f)
  | Console l k => Console l (bind k f)
  | AwaitFetch k => AwaitFetch (fun r => bind (k r) f)
  | AwaitJson k => AwaitJson (fun r => bind (k r) f)
  | AwaitQuery k => AwaitQuery (fun r => bind (k r) f)
  | AwaitExec c k => AwaitExec c (fun r => bind (k r) f)
  end.

(** [try { m } catch (e) { h e }]. *)
Fixpoint try_catch {A : Type} (m : Proc A) (h : exn -> Proc A) : Proc A :=
  match m with
  | Ret a => Ret a
  | Throw e => h e
  | GetLast k => GetLast (fun w => try_catch (k w) h)
  | SetLast w k => SetLast w (try_catch k h)
  | WriteFileSync k => WriteFileSync (fun r => try_catch (k r) h)
  | Console l k => Console l (try_catch k h)
  | AwaitFetch k => AwaitFetch (fun r => try_catch (k r) h)
  | AwaitJson k => AwaitJson (fun r => try_catch (k r) h)
  | AwaitQuery k => AwaitQuery (fun r => try_catch (k r) h)
  | AwaitExec c k => AwaitExec c (fun r => try_catch (k r) h)
  end.

(** A rejected promise (or a failing synchronous call) throws at the point
    where it is awaited (called). *)
Definition settle {A : Type} (r : result A) : Proc A :=
  match r with
  | inl e => Throw e
  | inr a => Ret a
  end.

Definition get_last : Proc watermark := GetLast Ret.
Definition set_last (w : watermark) : Proc unit := SetLast w (Ret tt).
Definition writeFileSync : Proc unit := WriteFileSync settle.
Definition console (l : log) : Proc unit := Console l (Ret tt).
Definition await_fetch : Proc response := AwaitFetch settle.
Definition await_json : Proc rows := AwaitJson settle.
Definition await_query : Proc query := AwaitQuery settle.
Definition execPromise (c : cmd) : Proc unit := AwaitExec c settle.

Declare Scope proc_scope.
Delimit Scope proc_scope with proc.
Notation "x <- m ;; k" := (bind m (fun x => k))
  (at level 100, m at next level, right associativity) : proc_scope.
Notation "m ;; k" := (bind m (fun _ => k))
  (at level 100, right associativity) : proc_scope.
Local Open Scope proc_scope.

(** ** The minimal poller *)

Module Minimal.

Section WithConfig.

(** [--handle], with its first [@] removed by the argument parser. *)
Variable handle : string.

(** Line 58: [msg.body.includes(handle)]. *)
Definition isSelfAuthored (b : string) : bool := includes b handle.

(** Line 62. *)
Definition isTriggerMatch (b : string) : bool :=
  includes (toLowerCase b) "check room" || includes b ("@" ++ handle).

(** Lines 31-73. *)
Definition poll : Proc unit :=
  console LogPolling ;;
  try_catch
    (response <- await_fetch ;;
     if negb (ok response) then console (LogApiError (status response))
     else
       data <- await_json ;;
       match data with
       | Some (msg :: _) =>
           last <- get_last ;;
           if falsy last then
             set_last (Some (id msg)) ;;
             writeFileSync
           else
             selfTest <-
               (if differs (id msg) last then
                  match body msg with
                  | None => Throw cannot_read
                  | Some b => Ret (negb (isSelfAuthored b))
                  end
                else Ret false) ;;
             if (selfTest : bool) then
               set_last (Some (id msg)) ;;
               writeFileSync ;;
               match body msg with
               | None => Throw cannot_read
               | Some b =>
                   if isTriggerMatch b then
                     console LogInjectingTmux ;;
                     execPromise (SendKeysLiteral "claude" "check room") ;;
                     execPromise Sleep ;;
                     execPromise (SendKeysEnter "claude")
                   else Ret tt
               end
             else Ret tt
       | _ => Ret tt
       end)
    (fun e => console (LogFetchError (message_of e))).

End WithConfig.

End Minimal.

(** ** The unified poller *)

Module Unified.

Section WithConfig.

(** [--session] and [--handle] as typed on the command line. *)
Variable TMUX_SESSION : string.
Variable handleArg : string.

(** Line 225. *)
Definition BOT_HANDLE : string := toLowerCase handleArg.

(** [latestMsg.body || ""]. *)
Definition orEmpty (b : option string) : string :=
  match b with
  | Some s => s
  | None => ""
  end.

(** Line 306. *)
Definition bodyStr (b : option string) : string := toLowerCase (orEmpty b).

(** Line 309: [bodyStr.includes(BOT_HANDLE)]. *)
Definition isSelfAuthored (b : option string) : bool :=
  includes (bodyStr b) BOT_HANDLE.

(** Line 313. *)
Definition isTriggerMatch (b : option string) : bool :=
  includes (bodyStr b) "check room" || includes (bodyStr b) ("@" ++ BOT_HANDLE).

(** Lines 258-274. *)
Definition injectPrompt (b : option string) : Proc unit :=
  try_catch
    (console (LogInjectingSession TMUX_SESSION) ;;
     execPromise (HasSession TMUX_SESSION) ;;
     execPromise (SendKeysLiteral TMUX_SESSION "check room") ;;
     execPromise Sleep ;;
     execPromise (SendKeysEnter TMUX_SESSION) ;;
     console LogTriggered)
    (fun _ => console (LogUnreachable TMUX_SESSION)).

(** Lines 276-325. *)
Definition pollRoom : Proc unit :=
  try_catch
    (q <- await_query ;;
     match error q with
     | Some err => console (LogErrorFetching err)
     | None =>
         match data q with
         | Some (latestMsg :: _) =>
             last <- get_last ;;
             if falsy last then
               set_last (Some (id latestMsg)) ;;
               writeFileSync ;;
               console (LogInit (Some (id latestMsg)))
             else if differs (id latestMsg) last then
               set_last (Some (id latestMsg)) ;;
               writeFileSync ;;
               if negb (isSelfAuthored (body latestMsg)) then
                 if isTriggerMatch (body latestMsg) then
                   console (LogTriggerMatched (body latestMsg)) ;;
                   injectPrompt (body latestMsg)
                 else console (LogIgnored (id latestMsg))
               else Ret tt
             else Ret tt
         | _ => Ret tt
         end
     end)
    (fun e => console (LogPollingError (message_of e))).

End WithConfig.

End Unified.

(** ** Sequential semantics: one whole cycle against an oracle *)

(** What the world answers during one cycle.  [write_tears] says whether a
    failing [fs.writeFileSync] leaves the cache file truncated (the write is
    not atomic) or untouched. *)
Record oracle := {
  fetch_result : result response;
  json_result : result rows;
  query_result : result query;
  exec_result : cmd -> result unit;
  write_result : result unit;
  write_tears : bool
}.

Inductive event :=
| EvLog (l : log)
| EvFetch
| EvQuery
| EvWrite (w : watermark) (done : bool)
| EvExec (c : cmd) (done : bool).

Definition succeeded {A : Type} (r : result A) : bool :=
  match r with
  | inl _ => false
  | inr _ => true
  end.

(** Effect of [fs.writeFileSync(CACHE_FILE, JSON.stringify({ lastSeenId }))]
    on the state: the current value of the module variable is what gets
    serialised. *)
Definition write_cache (r : result unit) (tears : bool) (s : state) : state :=
  if succeeded r then
    {| lastSeenId := lastSeenId s; CACHE_FILE := Cache (lastSeenId s) |}
  else if tears then
    {| lastSeenId := lastSeenId s; CACHE_FILE := Garbage |}
  else s.

Fixpoint run {A : Type} (p : Proc A) (o : oracle) (s : state)
  : state * list event * result A :=
  match p with
  | Ret a => (s, [], inr a)
  | Throw e => (s, [], inl e)
  | GetLast k => run (k (lastSeenId s)) o s
  | SetLast w k => run k o {| lastSeenId := w; CACHE_FILE := CACHE_FILE s |}
  | WriteFileSync k =>
      let '(s', tr, r) :=
        run (k (write_result o)) o
            (write_cache (write_result o) (write_tears o) s) in
      (s', EvWrite (lastSeenId s) (succeeded (write_result o)) :: tr, r)
  | Console l k =>
      let '(s', tr, r) := run k o s in (s', EvLog l :: tr, r)
  | AwaitFetch k =>
      let '(s', tr, r) := run (k (fetch_result o)) o s in (s', EvFetch :: tr, r)
  | AwaitJson k => run (k (json_result o)) o s
  | AwaitQuery k =>
      let '(s', tr, r) := run (k (query_result o)) o s in (s', EvQuery :: tr, r)
  | AwaitExec c k =>
      let '(s', tr, r) := run (k (exec_result o c)) o s in
      (s', EvExec c (succeeded (exec_result o c)) :: tr, r)
  end.

Definition state_of {A : Type} (x : state * list event * result A) : state :=
  fst (fst x).
Definition trace_of {A : Type} (x : state * list event * result A)
  : list event := snd (fst x).
Definition result_of {A : Type} (x : state * list event * result A)
  : result A := snd x.

(** The same cycle, with the state each event happens in: for a write, the
    state it leaves; for a console line or a command, the state at the time
    it is issued.  [history_trace] says that the events are those of
    [run]. *)
Fixpoint history {A : Type} (p : Proc A) (o : oracle) (s : state)
  : list (event * state) :=
  match p with
  | Ret _ => []
  | Throw _ => []
  | GetLast k => history (k (lastSeenId s)) o s
  | SetLast w k => history k o {| lastSeenId := w; CACHE_FILE := CACHE_FILE s |}
  | WriteFileSync k =>
      let s' := write_cache (write_result o) (write_tears o) s in
      (EvWrite (lastSeenId s) (succeeded (write_result o)), s')
        :: history (k (write_result o)) o s'
  | Console l k => (EvLog l, s) :: history k o s
  | AwaitFetch k => (EvFetch, s) :: history (k (fetch_result o)) o s
  | AwaitJson k => history (k (json_result o)) o s
  | AwaitQuery k => (EvQuery, s) :: history (k (query_result o)) o s
  | AwaitExec c k =>
      (EvExec c (succeeded (exec_result o c)), s)
        :: history (k (exec_result o c)) o s
  end.

(** The start of a dispatch: the first statement of the injection block of
    [poll] (line 63) and of [injectPrompt] (line 260). *)
Definition is_dispatch_start (e : event) : bool :=
  match e with
  | EvLog LogInjectingTmux => true
  | EvLog (LogInjectingSession _) => true
  | _ => false
  end.

(** Anything that belongs to a dispatch: its start or a shell command. *)
Definition is_dispatch (e : event) : bool :=
  match e with
  | EvExec _ _ => true
  | _ => is_dispatch_start e
  end.

Definition is_write (e : event) : bool :=
  match e with
  | EvWrite _ _ => true
  | _ => false
  end.

Definition dispatches (tr : list event) : nat :=
  length (filter is_dispatch_start tr).

Definition writes (tr : list event) : list event := filter is_write tr.

Definition execs (tr : list event) : list event :=
  filter (fun e => match e with EvExec _ _ => true | _ => false end) tr.

(** The message a cycle gets to look at, if any. *)
Definition first_row (d : rows) : option message :=
  match d with
  | Some (m :: _) => Some m
  | _ => None
  end.

Definition observed_poll (o : oracle) : option message :=
  match fetch_result o with
  | inr r =>
      if ok r then
        match json_result o with
        | inr d => first_row d
        | inl _ => None
        end
      else None
  | inl _ => None
  end.

Definition observed_pollRoom (o : oracle) : option message :=
  match query_result o with
  | inr q =>
      match error q with
      | None => first_row (data q)
      | Some _ => None
      end
  | inl _ => None
  end.

(** ** The timer loop, cycles run one after the other *)

(** A tick of [setInterval], or a relaunch of the script (which re-runs the
    start-up code on the cache file). *)
Inductive tick :=
| Restart
| Fire (o : oracle).

Definition relaunch (s : state) : state :=
  {| lastSeenId := startup (CACHE_FILE s); CACHE_FILE := CACHE_FILE s |}.

(** One entry per cycle that ran: the oracle it ran against and its trace.
    A cycle whose promise rejects takes the process down (an unhandled
    rejection); the remaining ticks never run. *)
Fixpoint loop (p : Proc unit) (ts : list tick) (s : state)
  : list (oracle * list event) * state * option exn :=
  match ts with
  | [] => ([], s, None)
  | Restart :: ts' => loop p ts' (relaunch s)
  | Fire o :: ts' =>
      let '(s', tr, r) := run p o s in
      match r with
      | inl e => ([(o, tr)], s', Some e)
      | inr _ =>
          let '(cs, s'', h) := loop p ts' s' in ((o, tr) :: cs, s'', h)
      end
  end.

Definition cycles_of (x : list (oracle * list event) * state * option exn)
  : list (oracle * list event) := fst (fst x).
Definition final_state (x : list (oracle * list event) * state * option exn)
  : state := snd (fst x).


(** *** Book-keeping for idempotence *)

Section Observation.

(** Which message a cycle looks at, as a function of its oracle. *)
Variable observed : oracle -> option message.

Definition observes (x : string) (o : oracle) : bool :=
  match observed o with
  | Some m => id m =? x
  | None => false
  end.

(** The ids the successive cycles look at. *)
Fixpoint observed_ids (ts : list tick) : list string :=
  match ts with
  | [] => []
  | Restart :: ts' => observed_ids ts'
  | Fire o :: ts' =>
      match observed o with
      | Some m => id m :: observed_ids ts'
      | None => observed_ids ts'
      end
  end.

(** Dispatches started by the cycles that were looking at message [x]. *)
Fixpoint dispatch_count (x : string) (cs : list (oracle * list event)) : nat :=
  match cs with
  | [] => 0
  | (o, tr) :: cs' =>
      (if observes x o then dispatches tr else 0) + dispatch_count x cs'
  end.


End Observation.





(** Nothing will make the pollers dispatch for [x] while [x] stays the
    newest message: both the variable and the cache hold [x] or are falsy. *)
Definition quiet (x : string) (s : state) : Prop :=
  (lastSeenId s = Some x \/ falsy (lastSeenId s) = true) /\
  (startup (CACHE_FILE s) = Some x \/ falsy (startup (CACHE_FILE s)) = true).

(** No dispatch event before the first successful write of [Some i]. *)
Fixpoint write_first (i : string) (tr : list event) : bool :=
  match tr with
  | [] => true
  | e :: tr' =>
      if is_dispatch e then false
      else
        match e with
        | EvWrite (Some j) true => (j =? i) || write_first i tr'
        | _ => write_first i tr'
        end
  end.



(** ** Event-loop semantics: cycles suspended at their awaits

    JavaScript runs a callback to completion; an [async] function gives the
    control back at each [await] and is resumed when the awaited promise
    settles.  [setInterval(poll, ms)] calls [poll] at every tick and does
    nothing with the promise it returns. *)

(** Run the synchronous statements up to the next [await] (or the end; an
    exception that escapes ends the cycle too). *)
Fixpoint advance (p : Proc unit) (wr : result unit) (tears : bool) (s : state)
  : state * list event * option (Proc unit) :=
  match p with
  | Ret _ => (s, [], None)
  | Throw _ => (s, [], None)
  | GetLast k => advance (k (lastSeenId s)) wr tears s
  | SetLast w k =>
      advance k wr tears {| lastSeenId := w; CACHE_FILE := CACHE_FILE s |}
  | WriteFileSync k =>
      let '(s', tr, q) := advance (k wr) wr tears (write_cache wr tears s) in
      (s', EvWrite (lastSeenId s) (succeeded wr) :: tr, q)
  | Console l k =>
      let '(s', tr, q) := advance k wr tears s in (s', EvLog l :: tr, q)
  | AwaitFetch _ => (s, [], Some p)
  | AwaitJson _ => (s, [], Some p)
  | AwaitQuery _ => (s, [], Some p)
  | AwaitExec _ _ => (s, [], Some p)
  end.

Inductive settled :=
| FetchSettled (r : result response)
| JsonSettled (r : result rows)
| QuerySettled (r : result query)
| ExecSettled (r : result unit).

(** The continuation of a suspended cycle once its promise has settled. *)
Definition resume (p : Proc unit) (v : settled)
  : option (Proc unit * list event) :=
  match p, v with
  | AwaitFetch k, FetchSettled r => Some (k r, [EvFetch])
  | AwaitJson k, JsonSettled r => Some (k r, [])
  | AwaitQuery k, QuerySettled r => Some (k r, [EvQuery])
  | AwaitExec c k, ExecSettled r => Some (k r, [EvExec c (succeeded r)])
  | _, _ => None
  end.

(** What the event loop picks next: a timer tick, or the settlement of the
    promise the [i]-th suspended cycle is waiting for.  Either carries the
    outcome of the file write that the synchronous segment may perform. *)
Inductive occurrence :=
| TimerFires (wr : result unit) (tears : bool)
| PromiseSettles (i : nat) (v : settled) (wr : result unit) (tears : bool).

Record world := {
  memory : state;
  inflight : list (Proc unit);
  output : list event
}.

Definition suspended (q : option (Proc unit)) : list (Proc unit) :=
  match q with
  | Some c => [c]
  | None => []
  end.

Definition step (p : Proc unit) (e : occurrence) (w : world) : world :=
  match e with
  | TimerFires wr tears =>
      let '(s', tr, q) := advance p wr tears (memory w) in
      {| memory := s';
         inflight := inflight w ++ suspended q;
         output := output w ++ tr |}
  | PromiseSettles i v wr tears =>
      match nth_error (inflight w) i with
      | Some c =>
          match resume c v with
          | Some (c', tr0) =>
              let '(s', tr, q) := advance c' wr tears (memory w) in
              {| memory := s';
                 inflight :=
                   firstn i (inflight w) ++ suspended q
                     ++ skipn (S i) (inflight w);
                 output := output w ++ tr0 ++ tr |}
          | None => w
          end
      | None => w
      end
  end.

Definition steps (p : Proc unit) (es : list occurrence) (w : world) : world :=
  fold_left (fun w e => step p e w) es w.

Definition boot (f : file) : world :=
  {| memory := {| lastSeenId := startup f; CACHE_FILE := f |};
     inflight := [];
     output := [] |}.

(** The settlement the oracle of the sequential semantics gives to the
    promise a suspended cycle is waiting for. *)
Definition answer (o : oracle) (c : Proc unit) : settled :=
  match c with
  | AwaitJson _ => JsonSettled (json_result o)
  | AwaitQuery _ => QuerySettled (query_result o)
  | AwaitExec c _ => ExecSettled (exec_result o c)
  | _ => FetchSettled (fetch_result o)
  end.

(** [completes o p s s' tr]: a cycle [p] that the event loop runs with no
    other cycle in between, every promise settling as [o] says, ends in
    state [s'] having produced [tr]. *)
Inductive completes (o : oracle)
  : Proc unit -> state -> state -> list event -> Prop :=
| completes_done p s s' tr :
    advance p (write_result o) (write_tears o) s = (s', tr, None) ->
    completes o p s s' tr
| completes_resume p s s1 tr1 c c' tr0 s2 tr2 :
    advance p (write_result o) (write_tears o) s = (s1, tr1, Some c) ->
    resume c (answer o c) = Some (c', tr0) ->
    completes o c' s1 s2 tr2 ->
    completes o p s s2 (tr1 ++ tr0 ++ tr2).


(** *** Synchronous segments

    Between two [await]s a cycle runs without giving the control back, so
    what it writes and what it starts in one segment cannot be separated by
    another cycle. *)

(** The message that comes with a settlement, if any. *)
Definition delivered (v : settled) : option message :=
  match v with
  | JsonSettled (inr d) => first_row d
  | QuerySettled (inr q) =>
      match error q with
      | None => first_row (data q)
      | Some _ => None
      end
  | _ => None
  end.

Definition arrived (e : occurrence) : option message :=
  match e with
  | TimerFires _ _ => None
  | PromiseSettles _ v _ _ => delivered v
  end.

(** What a successful write leaves in the cache file, when the value of
    the variable is known. *)
Definition written (r : result unit) (var : option watermark)
  : option string :=
  if succeeded r then
    match var with
    | Some (Some i) => Some i
    | _ => None
    end
  else None.

(** [orderly x held started var p]: reading the segment [p] statement by
    statement, a dispatch is only started when the id [x] of the message
    that arrived has been written successfully earlier in the segment
    ([held]), and once a dispatch is [started] the segment no longer touches
    the variable or the file.  [var] is the value of the variable when the
    segment has set it.  At an [await] the same must hold of every
    continuation, for the message that comes with the settlement. *)
Fixpoint orderly (x held : option string) (started : bool)
         (var : option watermark) (p : Proc unit) : Prop :=
  match p with
  | Ret _ => True
  | Throw _ => True
  | GetLast k => forall w, orderly x held started var (k w)
  | SetLast w k => started = false /\ orderly x None false (Some w) k
  | WriteFileSync k =>
      started = false /\ forall r, orderly x (written r var) false var (k r)
  | Console l k =>
      if is_dispatch_start (EvLog l)
      then (exists i, x = Some i /\ held = Some i) /\ orderly x held true var k
      else orderly x held started var k
  | AwaitFetch k => forall r, orderly None None false None (k r)
  | AwaitJson k =>
      forall r,
        orderly (option_map id (delivered (JsonSettled r))) None false None
                (k r)
  | AwaitQuery k =>
      forall r,
        orderly (option_map id (delivered (QuerySettled r))) None false None
                (k r)
  | AwaitExec _ k => forall r, orderly None None false None (k r)
  end.

(** A suspended cycle whose every continuation is orderly. *)
Definition ready (c : Proc unit) : Prop :=
  forall v c' tr0,
    resume c v = Some (c', tr0) ->
    Forall (fun e => is_dispatch_start e = false) tr0 /\
    orderly (option_map id (delivered v)) None false None c'.

(** ** The two scripts side by side, and sample inputs *)

(** Each poller with the function telling which message its cycle looks
    at. *)
Definition pollers (handle session handleArg : string)
  : list (Proc unit * (oracle -> option message)) :=
  [ (Minimal.poll handle, observed_poll);
    (Unified.pollRoom session handleArg, observed_pollRoom) ].

Module Samples.

(** The room answers with [m] as its newest message and everything else
    succeeds. *)
Definition serve (m : message) : oracle :=
  {| fetch_result := inr {| ok := true; status := 200 |};
     json_result := inr (Some [m]);
     query_result := inr {| data := Some [m]; error := None |};
     exec_result := fun _ => inr tt;
     write_result := inr tt;
     write_tears := false |}.

Definition failing_write (o : oracle) : oracle :=
  {| fetch_result := fetch_result o;
     json_result := json_result o;
     query_result := query_result o;
     exec_result := exec_result o;
     write_result := inl (Error "EACCES");
     write_tears := false |}.


Definition m1 : message := {| id := "m1"; body := Some "hello" |}.
Definition m2 : message := {| id := "m2"; body := Some "please Check Room" |}.
Definition m3 : message := {| id := "m3"; body := Some "bot: check room now" |}.
Definition m4 : message :=
  {| id := "m4"; body := Some "BOT: please check room" |}.
Definition m5 : message := {| id := "m5"; body := None |}.

Definition fresh : state := {| lastSeenId := None; CACHE_FILE := NoFile |}.
Definition at_id (i : string) : state :=
  {| lastSeenId := Some i; CACHE_FILE := Cache (Some i) |}.

End Samples.

(** ** Further book-keeping on traces *)

(** The shell commands of a dispatch, in the order the scripts issue them:
    [injectPrompt] runs all four on the configured session, the minimal
    poller runs the last three on the session ["claude"]. *)
Definition script (probe : bool) (target : string) : list cmd :=
  (if probe then [HasSession target] else [])
  ++ [SendKeysLiteral target "check room"; Sleep; SendKeysEnter target].

Definition command_of (e : event) : option cmd :=
  match e with
  | EvExec c _ => Some c
  | _ => None
  end.

Fixpoint commands (tr : list event) : list cmd :=
  match tr with
  | [] => []
  | e :: tr' =>
      match command_of e with
      | Some c => c :: commands tr'
      | None => commands tr'
      end
  end.

(** The commands that failed. *)
Definition failures (tr : list event) : list event :=
  filter (fun e => match e with EvExec _ false => true | _ => false end) tr.

(** Both the variable and the cache file hold a watermark. *)
Definition anchored (s : state) : Prop :=
  falsy (lastSeenId s) = false /\ falsy (startup (CACHE_FILE s)) = false.

(** The state after the watermark has been set to [x] and written. *)
Definition moved_to (x : string) (o : oracle) (s : state) : state :=
  write_cache (write_result o) (write_tears o)
    {| lastSeenId := Some x; CACHE_FILE := CACHE_FILE s |}.


(** ** The markdown memory store *)

Module Memory.

(** *** Keys and file names *)

(** The character class [[a-zA-Z0-9._-]]. *)
Definition safe_char (c : ascii) : bool :=
  let n := nat_of_ascii c in
  (((97 <=? n)%nat && (n <=? 122)%nat)
   || ((65 <=? n)%nat && (n <=? 90)%nat)
   || ((48 <=? n)%nat && (n <=? 57)%nat)
   || (n =? 46)%nat || (n =? 95)%nat || (n =? 45)%nat)%bool.

Definition dash : ascii := "-"%char.

Definition is_dash (c : ascii) : bool := Ascii.eqb c dash.

(** [.replace(/[^a-zA-Z0-9._-]/g, '-')]. *)
Fixpoint replace_unsafe (s : string) : string :=
  match s with
  | EmptyString => EmptyString
  | String c s' =>
      String (if safe_char c then c else dash) (replace_unsafe s')
  end.

(** [.replace(/-+/g, '-')]: every run of dashes becomes one dash. *)
Fixpoint squeeze (s : string) : string :=
  match s with
  | EmptyString => EmptyString
  | String c s' =>
      if is_dash c then
        match s' with
        | EmptyString => String c EmptyString
        | String d _ => if is_dash d then squeeze s' else String c (squeeze s')
        end
      else String c (squeeze s')
  end.

(** Lines 53-55.  A character outside ASCII is one or more units that are
    all outside the class, so it ends up as part of one dash whether the
    units are UTF-16 or bytes. *)
Definition sanitizeKey (key : string) : string := squeeze (replace_unsafe key).

(** [s.endsWith(t)]. *)
Fixpoint endsWith (s t : string) : bool :=
  (s =? t) ||
  match s with
  | EmptyString => false
  | String _ s' => endsWith s' t
  end.

(** Line 59. *)
Definition filename (key : string) : string :=
  let safe := sanitizeKey key in
  if endsWith safe ".md" then safe else safe ++ ".md".

(** A directory without empty segments and without dot segments, as
    [path.resolve] and [path.join] return them; the root is one. *)
Definition normal (dir : string) : bool :=
  negb (dir =? "") && negb (includes dir "//")
  && negb (includes ("/" ++ dir ++ "/") "/./")
  && negb (includes ("/" ++ dir ++ "/") "/../").

(** What [path.join] puts between a directory and a name: nothing after a
    directory that ends with a separator, as the root does. *)
Definition separator (dir : string) : string :=
  if endsWith dir "/" then "" else "/".

(** [path.join(dir, name)] for a [normal] directory and a file name that has
    no separator and is no dot segment (see [filename_is_plain]): nothing
    is left for [path.join] to normalise. *)
Definition join (dir name : string) : string := dir ++ separator dir ++ name.

(** Lines 57-61. *)
Definition keyToPath (memDir key : string) : string :=
  join memDir (filename key).

(** [f.replace(/\.md$/, '')]. *)
Definition strip_md (f : string) : string :=
  if endsWith f ".md" then substring 0 (String.length f - 3) f else f.

Fixpoint all_chars (p : ascii -> bool) (s : string) : bool :=
  match s with
  | EmptyString => true
  | String c s' => p c && all_chars p s'
  end.

(** No two dashes in a row. *)
Fixpoint spaced (s : string) : bool :=
  match s with
  | String c (String d _ as s') => negb (is_dash c && is_dash d) && spaced s'
  | _ => true
  end.

(** *** The file system as the module sees it *)

Inductive node :=
| File (content : string)
| Directory.

(** Paths and what is there. *)
Definition store := list (string * node).

Fixpoint lookup (p : string) (st : store) : option node :=
  match st with
  | [] => None
  | (q, n) :: st' => if q =? p then Some n else lookup p st'
  end.

Fixpoint update (p : string) (n : node) (st : store) : store :=
  match st with
  | [] => [(p, n)]
  | (q, m) :: st' =>
      if q =? p then (p, n) :: st' else (q, m) :: update p n st'
  end.

Definition remove (p : string) (st : store) : store :=
  filter (fun e => negb (fst e =? p)) st.

(** A computation on the file system: it may throw, and what it did before
    throwing stays done. *)
Definition fs (A : Type) : Type := store -> result A * store.

Definition fs_ret {A : Type} (a : A) : fs A := fun st => (inr a, st).

Definition fs_throw {A : Type} (e : exn) : fs A := fun st => (inl e, st).

Definition fs_bind {A B : Type} (m : fs A) (f : A -> fs B) : fs B :=
  fun st =>
    match m st with
    | (inr a, st') => f a st'
    | (inl e, st') => (inl e, st')
    end.

(** [try { m } catch { h }]. *)
Definition fs_catch {A : Type} (m : fs A) (h : fs A) : fs A :=
  fun st =>
    match m st with
    | (inr a, st') => (inr a, st')
    | (inl _, st') => h st'
    end.

Definition existsSync (p : string) : fs bool :=
  fun st =>
    (inr (match lookup p st with Some _ => true | None => false end), st).

(** What the operating system refuses for reasons the store does not
    record (permissions, a read-only or full file system): creating a
    directory, writing a file, removing a file. *)
Record refusals := {
  no_mkdir : string -> bool;
  no_write : string -> bool;
  no_unlink : string -> bool
}.

(** A regular file of the store is in the way of [p]: it stands where [p]
    needs a directory. *)
Definition under_file (p : string) (st : store) : bool :=
  existsb (fun e => match lookup (fst e) st with
                    | Some (File _) => startsWith p (fst e ++ "/")
                    | _ => false
                    end) st.

Section FileSystem.

Variable refuses : refusals.

(** [mkdirSync(p, { recursive: true })] on a path that is not there would
    fail. *)
Definition mkdir_fails (p : string) (st : store) : bool :=
  under_file p st || no_mkdir refuses p.

(** [mkdirSync(p, { recursive: true })]: no error when [p] is a directory
    already.  The parents it may create are not recorded. *)
Definition mkdirSync (p : string) : fs unit :=
  fun st =>
    match lookup p st with
    | Some (File _) => (inl (Error "EEXIST"), st)
    | Some Directory => (inr tt, st)
    | None =>
        if under_file p st then (inl (Error "ENOTDIR"), st)
        else if no_mkdir refuses p then (inl (Error "EACCES"), st)
        else (inr tt, update p Directory st)
    end.

Definition readFileSync (p : string) : fs string :=
  fun st =>
    match lookup p st with
    | Some (File c) => (inr c, st)
    | Some Directory => (inl (Error "EISDIR"), st)
    | None => (inl (Error "ENOENT"), st)
    end.

(** [writeFileSync(join(dir, name), v)]: the directory must be there, the
    target must not be a directory, and the system must allow it. *)
Definition writeFileSync (dir name v : string) : fs unit :=
  fun st =>
    match lookup dir st with
    | Some Directory =>
        match lookup (join dir name) st with
        | Some Directory => (inl (Error "EISDIR"), st)
        | _ =>
            if no_write refuses (join dir name)
            then (inl (Error "EACCES"), st)
            else (inr tt, update (join dir name) (File v) st)
        end
    | Some (File _) => (inl (Error "ENOTDIR"), st)
    | None => (inl (Error "ENOENT"), st)
    end.

Definition unlinkSync (p : string) : fs unit :=
  fun st =>
    match lookup p st with
    | Some (File _) =>
        if no_unlink refuses p then (inl (Error "EACCES"), st)
        else (inr tt, remove p st)
    | Some Directory => (inl (Error "EPERM"), st)
    | None => (inl (Error "ENOENT"), st)
    end.

End FileSystem.

(** The name of [p] inside [dir], when [p] is directly inside. *)
Definition child_name (dir p : string) : option string :=
  if startsWith p (dir ++ separator dir) then
    let name :=
      substring (String.length (dir ++ separator dir)) (String.length p) p in
    if (name =? "") || includes name "/" then None else Some name
  else None.

Fixpoint children (dir : string) (st : store) : list string :=
  match st with
  | [] => []
  | (p, _) :: st' =>
      match child_name dir p with
      | Some name => name :: children dir st'
      | None => children dir st'
      end
  end.

Definition readdirSync (dir : string) : fs (list string) :=
  fun st =>
    match lookup dir st with
    | Some Directory => (inr (children dir st), st)
    | Some (File _) => (inl (Error "ENOTDIR"), st)
    | None => (inl (Error "ENOENT"), st)
    end.

Declare Scope fs_scope.
Delimit Scope fs_scope with fs.
Notation "x <- m ;; k" := (fs_bind m (fun x => k))
  (at level 100, m at next level, right associativity) : fs_scope.
Notation "m ;; k" := (fs_bind m (fun _ => k))
  (at level 100, right associativity) : fs_scope.

(** *** Configuration *)

(** [config?.memory]: absent, or its three optional fields. *)
Record memory_section := {
  mem_backend : option string;
  mem_agent : option string;
  mem_dir : option string
}.

Record options := { backend : option string; agent : option string }.

Definition field (c : option memory_section)
           (f : memory_section -> option string) : option string :=
  match c with
  | Some m => f m
  | None => None
  end.

(** [a || b] on values that are strings or missing. *)
Definition or_else (a b : option string) : option string :=
  match a with
  | Some s => if truthy s then a else b
  | None => b
  end.

Definition or_default (a : option string) (d : string) : string :=
  match or_else a None with
  | Some s => s
  | None => d
  end.

Definition DEFAULT_MEMORY_DIR : string := "./memory".

(** Line 34. *)
Definition agent_required : exn :=
  Error "OpenClaw backend requires --agent <name> (e.g., sally, ether, haruka)".

Inductive action := ActSet | ActAppend | ActDeleted | ActNotFound.

Record listed := { l_key : string; l_path : string; l_size : nat }.

Record got := {
  g_key : string;
  g_path : string;
  g_content : option string;
  g_error : option string
}.

Record done := {
  d_key : string;
  d_path : string;
  d_action : action;
  d_size : option nat
}.

(** [replace(c, d)] with a string pattern: the first occurrence only. *)
Fixpoint replace_first (c d : ascii) (s : string) : string :=
  match s with
  | EmptyString => EmptyString
  | String x s' =>
      if Ascii.eqb x c then String d s' else String x (replace_first c d s')
  end.

(** Line 100, from the reading of the clock as an ISO string. *)
Definition timestamp (iso : string) : string :=
  replace_first "T" " " (substring 0 19 iso).

(** The store once [dir] has been made sure of (lines 38-40, 47-49). *)
Definition prepared (dir : string) (st : store) : store :=
  match lookup dir st with
  | Some _ => st
  | None => update dir Directory st
  end.

(** What [memoryList] reports for the file [name] of [dir]. *)
Definition entry_of (dir : string) (st : store) (name : string) : listed :=
  {| l_key := strip_md name;
     l_path := join dir name;
     l_size := match lookup (join dir name) st with
               | Some (File c) => String.length c
               | _ => 0
               end |}.

(** The content of the file at [p], the empty string when there is none. *)
Definition content_at (p : string) (st : store) : string :=
  match lookup p st with
  | Some (File c) => c
  | _ => ""
  end.

Section WithEnvironment.

(** [OPENCLAW_DATA], and the two functions of the [path] module whose
    arguments are not under the control of this module. *)
Variable OPENCLAW_DATA : string.
Variable join3 : string -> string -> string -> string.
Variable resolve : string -> string.

(** What the operating system refuses. *)
Variable refuses : refusals.

Local Open Scope fs_scope.

(** Lines 38-41 and 47-50. *)
Definition ensure_dir (dir : string) : fs string :=
  present <- existsSync dir ;;
  if (present : bool) then fs_ret dir
  else mkdirSync refuses dir ;; fs_ret dir.

(** Lines 28-51. *)
Definition resolveMemoryDir (config : option memory_section) (o : options)
  : fs string :=
  let backend := or_default (or_else (backend o) (field config mem_backend))
                            "local" in
  if backend =? "openclaw" then
    match or_else (agent o) (field config mem_agent) with
    | Some agent =>
        if truthy agent
        then ensure_dir (join3 OPENCLAW_DATA ("workspace-" ++ agent) "memory")
        else fs_throw agent_required
    | None => fs_throw agent_required
    end
  else
    ensure_dir (resolve (or_default (field config mem_dir) DEFAULT_MEMORY_DIR)).

(** Line 70: the size of a listed file, 0 when it cannot be read. *)
Definition size_of (p : string) : fs nat :=
  fs_catch (c <- readFileSync p ;; fs_ret (String.length c)) (fs_ret 0).

Fixpoint list_entries (memDir : string) (files : list string)
  : fs (list listed) :=
  match files with
  | [] => fs_ret []
  | f :: files' =>
      n <- size_of (join memDir f) ;;
      rest <- list_entries memDir files' ;;
      fs_ret ({| l_key := strip_md f; l_path := join memDir f; l_size := n |}
                :: rest)
  end.

(** Lines 63-75. *)
Definition memoryList (config : option memory_section) (o : options)
  : fs (list listed) :=
  memDir <- resolveMemoryDir config o ;;
  fs_catch
    (names <- readdirSync memDir ;;
     list_entries memDir (filter (fun f => endsWith f ".md") names))
    (fs_ret []).

(** Lines 77-85. *)
Definition memoryGet (config : option memory_section) (key : string)
           (o : options) : fs got :=
  memDir <- resolveMemoryDir config o ;;
  let path := keyToPath memDir key in
  fs_catch
    (c <- readFileSync path ;;
     fs_ret {| g_key := key; g_path := path;
               g_content := Some c; g_error := None |})
    (fs_ret {| g_key := key; g_path := path;
               g_content := None; g_error := Some "not found" |}).

(** What [memoryGet] finds under [key], the empty string when nothing. *)
Definition stored (config : option memory_section) (o : options)
           (key : string) (st : store) : string :=
  match fst (memoryGet config key o st) with
  | inr g => match g_content g with Some c => c | None => "" end
  | inl _ => ""
  end.

(** Lines 87-92. *)
Definition memorySet (config : option memory_section) (key value : string)
           (o : options) : fs done :=
  memDir <- resolveMemoryDir config o ;;
  let path := keyToPath memDir key in
  writeFileSync refuses memDir (filename key) value ;;
  fs_ret {| d_key := key; d_path := path; d_action := ActSet;
            d_size := Some (String.length value) |}.

(** Lines 94-104; [iso] is what [new Date().toISOString()] returns. *)
Definition memoryAppend (config : option memory_section) (key value : string)
           (o : options) (iso : string) : fs done :=
  memDir <- resolveMemoryDir config o ;;
  let path := keyToPath memDir key in
  existing <- fs_catch (readFileSync path) (fs_ret "") ;;
  let separator :=
    if truthy existing && negb (endsWith existing (String "010" ""))
    then String "010" "" else "" in
  let entry :=
    (separator ++ String "010" "## " ++ timestamp iso
       ++ String "010" (String "010" "") ++ value ++ String "010" "")%string in
  writeFileSync refuses memDir (filename key) (existing ++ entry)%string ;;
  fs_ret {| d_key := key; d_path := path; d_action := ActAppend;
            d_size := Some (String.length (existing ++ entry)%string) |}.

(** Lines 106-115. *)
Definition memoryDelete (config : option memory_section) (key : string)
           (o : options) : fs done :=
  memDir <- resolveMemoryDir config o ;;
  let path := keyToPath memDir key in
  fs_catch
    (unlinkSync refuses path ;;
     fs_ret {| d_key := key; d_path := path; d_action := ActDeleted;
               d_size := None |})
    (fs_ret {| d_key := key; d_path := path; d_action := ActNotFound;
               d_size := None |}).

End WithEnvironment.

(** A sample environment: a data directory, and a working directory in
    which the relative default resolves. *)
Module Demo.

Definition join3 (a b c : string) : string := a ++ "/" ++ b ++ "/" ++ c.

Definition resolve (d : string) : string :=
  if startsWith d "./" then "/cwd/" ++ substring 2 (String.length d) d
  else d.

Definition local : options := {| backend := None; agent := None |}.

(** A system that refuses nothing, and one on which nothing can be
    removed. *)
Definition willing : refusals :=
  {| no_mkdir := fun _ => false;
     no_write := fun _ => false;
     no_unlink := fun _ => false |}.

Definition keeps_files : refusals :=
  {| no_mkdir := fun _ => false;
     no_write := fun _ => false;
     no_unlink := fun _ => true |}.

Definition one_note : store :=
  [("/cwd/memory", Directory); ("/cwd/memory/a-b.md", File "hello")].

End Demo.

End Memory.

(** ** Command lines of the two scripts *)

Module Cli.

(** [s.replace(c, '')] with a string pattern: the first occurrence goes. *)
Fixpoint remove_first (c : ascii) (s : string) : string :=
  match s with
  | EmptyString => EmptyString
  | String x s' => if Ascii.eqb x c then s' else String x (remove_first c s')
  end.

Section Minimal.

(** [parseInt(_, 10)] is left to the language; [NaN] is one of the
    numbers. *)
Variable number : Type.
Variable parseInt : string -> number.
Variable thirty : number.

Record settings := {
  rooms : string;
  apiKey : string;
  handle : string;
  interval : number
}.

(** Lines 10-13. *)
Definition defaults : settings :=
  {| rooms := "083b04cb-a227-44f1-8257-7db779d988f1";
     apiKey := "";
     handle := "claudemm";
     interval := thirty |}.

Inductive opt := Rooms | ApiKey | Handle | Interval.

Definition flag (f : opt) : string :=
  match f with
  | Rooms => "--rooms"
  | ApiKey => "--api-key"
  | Handle => "--handle"
  | Interval => "--interval"
  end.

Definition assign (f : opt) (v : string) (c : settings) : settings :=
  match f with
  | Rooms =>
      {| rooms := v; apiKey := apiKey c; handle := handle c;
         interval := interval c |}
  | ApiKey =>
      {| rooms := rooms c; apiKey := v; handle := handle c;
         interval := interval c |}
  | Handle =>
      {| rooms := rooms c; apiKey := apiKey c;
         handle := remove_first "@" v; interval := interval c |}
  | Interval =>
      {| rooms := rooms c; apiKey := apiKey c; handle := handle c;
         interval := parseInt v |}
  end.

(** One of the four statements of the loop body, on the arguments from
    position [i] on: [if (args[i] === flag && args[i + 1]) x = args[++i]]. *)
Definition take (f : opt) (st : list string * settings)
  : list string * settings :=
  match fst st with
  | a :: (v :: _) as rest =>
      if (a =? flag f) && truthy v then (rest, assign f v (snd st)) else st
  | _ => st
  end.

(** The body of the loop followed by [i++]. *)
Definition iteration (st : list string * settings) : list string * settings :=
  let st := take Interval (take Handle (take ApiKey (take Rooms st))) in
  (tl (fst st), snd st).

(** [n] rounds of the loop of lines 15-20, which stops at the end of the
    arguments. *)
Fixpoint rounds (n : nat) (st : list string * settings) : settings :=
  match n with
  | 0 => snd st
  | S n' =>
      match fst st with
      | [] => snd st
      | _ :: _ => rounds n' (iteration st)
      end
  end.

(** Every round moves on by one argument at least, so as many rounds as
    there are arguments see the loop through. *)
Definition parseArgs (args : list string) : settings :=
  rounds (length args) (args, defaults).

(** A command line written as options with their values. *)
Fixpoint render (l : list (opt * string)) : list string :=
  match l with
  | [] => []
  | (f, v) :: l' => flag f :: v :: render l'
  end.

Definition is_flag (v : string) : bool :=
  (v =? "--rooms") || (v =? "--api-key") || (v =? "--handle")
  || (v =? "--interval").

End Minimal.

(** [args.indexOf(x)], [None] for -1. *)
Fixpoint indexOf (x : string) (args : list string) : option nat :=
  match args with
  | [] => None
  | a :: args' =>
      if a =? x then Some 0
      else match indexOf x args' with
           | Some i => Some (S i)
           | None => None
           end
  end.

(** How the unified poller starts (lines 215-225): it prints its usage and
    exits, or dies of a [TypeError] on [undefined.toLowerCase()], or goes on
    with a session (possibly [undefined]) and a handle. *)
Inductive start :=
| Usage
| TypeError
| Started (TMUX_SESSION : option string) (BOT_HANDLE : string).

Definition unified_start (args : list string) : start :=
  match indexOf "--session" args, indexOf "--handle" args with
  | Some sessionArgIdx, Some handleArgIdx =>
      match nth_error args (handleArgIdx + 1) with
      | Some h => Started (nth_error args (sessionArgIdx + 1)) (toLowerCase h)
      | None => TypeError
      end
  | _, _ => Usage
  end.

End Cli.

(** ** The gateway clients *)

Module Gateway.

Record gateway := { host : string; port : N; token : string }.

(** [options], and [config?.openclaw]: every field may be missing. *)
Record overrides := {
  o_host : option string;
  o_port : option N;
  o_token : option string
}.

Definition DEFAULTS : gateway :=
  {| host := "127.0.0.1"; port := 18791%N; token := "" |}.

(** [a || b || d] on strings. *)
Definition pick_string (a b : option string) (d : string) : string :=
  match a with
  | Some s => if truthy s then s else
                match b with
                | Some s' => if truthy s' then s' else d
                | None => d
                end
  | None => match b with
            | Some s' => if truthy s' then s' else d
            | None => d
            end
  end.

(** [x || d] and [a || b || d] on port numbers, taken as whole numbers:
    0 is falsy, and nothing but that test is applied to them. *)
Definition or_number (x : option N) (d : N) : N :=
  match x with
  | Some n => if (n =? 0)%N then d else n
  | None => d
  end.

Definition pick_number (a b : option N) (d : N) : N :=
  or_number a (or_number b d).

Definition from_config (config : option overrides) : overrides :=
  match config with
  | Some c => c
  | None => {| o_host := None; o_port := None; o_token := None |}
  end.

(** [resolveGateway], the same in the four client files. *)
Definition resolveGateway (config : option overrides) (options : overrides)
  : gateway :=
  {| host := pick_string (o_host options) (o_host (from_config config))
                         (host DEFAULTS);
     port := pick_number (o_port options) (o_port (from_config config))
                         (port DEFAULTS);
     token := pick_string (o_token options) (o_token (from_config config))
                          (token DEFAULTS) |}.

Definition quote : ascii := "'"%char.
Definition backslash : ascii := "\"%char.

(** [body.replace(/'/g, "'\\''")]: every single quote becomes the four
    characters quote, backslash, quote, quote. *)
Fixpoint escape (s : string) : string :=
  match s with
  | EmptyString => EmptyString
  | String c s' =>
      if Ascii.eqb c quote
      then String quote (String backslash (String quote (String quote
             (escape s'))))
      else String c (escape s')
  end.

(** The shell word that carries the body: a quote, the escaped body, a
    quote. *)
Definition quoted (body : string) : string :=
  String quote (escape body ++ String quote EmptyString).

(** [bodyArg] of [rpc]. *)
Definition bodyArg (body : string) : string := "-d " ++ quoted body.

(** How a POSIX shell reads a word made of single-quoted parts and
    backslash-escaped characters: inside single quotes every character
    stands for itself up to the closing quote; outside, a backslash makes
    the next character stand for itself.  [None] for an unterminated quote
    or anything else outside quotes. *)
Fixpoint sh_word (inside : bool) (s : string) : option string :=
  match s with
  | EmptyString => if inside then None else Some EmptyString
  | String c s' =>
      if inside then
        if Ascii.eqb c quote then sh_word false s'
        else option_map (String c) (sh_word true s')
      else if Ascii.eqb c quote then sh_word true s'
      else if Ascii.eqb c backslash then
        match s' with
        | String d s'' => option_map (String d) (sh_word false s'')
        | EmptyString => None
        end
      else None
  end.

End Gateway.

(** ** Proof automation for single cycles *)

Ltac split_scrutinee :=
  match goal with
  | |- context [match ?x with _ => _ end] =>
      lazymatch x with
      | context [match _ with _ => _ end] => fail
      | _ => destruct x eqn:?
      end
  end.

Ltac cycle_simpl :=
  cbn -[includes toLowerCase String.append String.eqb] in *.

Ltac crunch :=
  repeat (cycle_simpl; unfold settle in *; split_scrutinee); cycle_simpl.

Ltac unfold_pollers :=
  unfold Minimal.poll, Unified.pollRoom, Unified.injectPrompt,
    observed_poll, observed_pollRoom, first_row,
    state_of, trace_of, result_of, dispatches, writes, execs, quiet,
    write_cache in *.

Ltac tidy :=
  intros; subst;
  repeat match goal with
         | H : Some _ = Some _ |- _ => injection H as H; subst
         | H : inr _ = inr _ |- _ => injection H as H; subst
         | H : inl _ = inl _ |- _ => injection H as H; subst
         | H : _ /\ _ |- _ => destruct H
         | u : unit |- _ => destruct u
         | H : negb _ = true |- _ => apply negb_true_iff in H
         | H : negb _ = false |- _ => apply negb_false_iff in H
         end;
  try discriminate; try congruence.

Ltac by_cases := unfold_pollers; crunch; tidy.


(** ** Facts about the string operations *)

Section StringFacts.

Local Open Scope string_scope.

Lemma startsWith_spec (s t : string) :
  startsWith s t = true <-> exists post, s = t ++ post.
Proof.
  revert s; induction t as [|c t IH]; intros s; simpl.
  - split; [intros _; now exists s | reflexivity].
  - destruct s as [|d s].
    + split; [discriminate | intros [post H]; discriminate].
    + rewrite andb_true_iff, Ascii.eqb_eq, IH. split.
      * intros [-> [post ->]]. now exists post.
      * intros [post H]. injection H as -> ->.
        split; [reflexivity | now exists post].
Qed.

Lemma includes_spec (s t : string) :
  includes s t = true <-> exists pre post, s = pre ++ t ++ post.
Proof.
  induction s as [|d s IH]; simpl.
  - rewrite orb_false_r, startsWith_spec. split.
    + intros [post H]. now exists "", post.
    + intros [pre [post H]]. destruct pre; [now exists post | discriminate].
  - rewrite orb_true_iff, startsWith_spec, IH. split.
    + intros [[post H] | [pre [post H]]].
      * now exists "", post.
      * exists (String d pre), post. simpl. now rewrite H.
    + intros [pre [post H]]. destruct pre as [|c pre]; simpl in H.
      * left. now exists post.
      * right. injection H as _ H. now exists pre, post.
Qed.

Lemma toLowerCase_app (a b : string) :
  toLowerCase (a ++ b) = toLowerCase a ++ toLowerCase b.
Proof. induction a as [|c a IH]; simpl; [reflexivity | now rewrite IH]. Qed.

(** Lower-casing works character by character: a split of the result is
    the image of a split of the argument. *)
Lemma toLowerCase_split (b x y : string) :
  toLowerCase b = x ++ y ->
  exists b1 b2, b = b1 ++ b2 /\ toLowerCase b1 = x /\ toLowerCase b2 = y.
Proof.
  revert b; induction x as [|c x IH]; intros b E.
  - exists "", b. auto.
  - destruct b as [|d b]; simpl in E; [discriminate|].
    injection E as C E. destruct (IH _ E) as [b1 [b2 [-> [L1 L2]]]].
    exists (String d b1), b2. simpl. rewrite C, L1. auto.
Qed.

Lemma lower_ascii_idem (c : ascii) :
  lower_ascii (lower_ascii c) = lower_ascii c.
Proof.
  destruct c as [[] [] [] [] [] [] [] []]; reflexivity.
Qed.

Lemma toLowerCase_idem (s : string) :
  toLowerCase (toLowerCase s) = toLowerCase s.
Proof.
  induction s as [|c s IH]; simpl; [reflexivity|].
  now rewrite lower_ascii_idem, IH.
Qed.

(** Lower-casing both sides keeps every occurrence. *)
Lemma includes_toLowerCase (s t : string) :
  includes s t = true -> includes (toLowerCase s) (toLowerCase t) = true.
Proof.
  rewrite !includes_spec. intros [pre [post ->]].
  exists (toLowerCase pre), (toLowerCase post).
  now rewrite !toLowerCase_app.
Qed.

(** A mention of the handle contains the handle. *)
Lemma includes_mention (s h : string) :
  includes s ("@" ++ h) = true -> includes s h = true.
Proof.
  rewrite !includes_spec. intros [pre [post ->]].
  exists (pre ++ "@"), post.
  clear. induction pre as [|c pre IH]; simpl; [reflexivity | f_equal; exact IH].
Qed.

Lemma includes_empty (s : string) : includes s "" = true.
Proof. destruct s; reflexivity. Qed.

Lemma empty_includes (t : string) : includes "" t = true -> t = "".
Proof. destruct t; [reflexivity | discriminate]. Qed.

End StringFacts.

(** ** Single cycles of the two pollers *)




Section MinimalCycle.

Variable h : string.
Variables (o : oracle) (s : state).

(** Every exception raised inside [poll] is caught by its own handler. *)
Lemma poll_returns : result_of (run (Minimal.poll h) o s) = inr tt.
Proof. by_cases. Qed.

(** Nothing to look at: nothing happens. *)
Lemma poll_miss :
  observed_poll o = None ->
  state_of (run (Minimal.poll h) o s) = s /\
  filter is_dispatch (trace_of (run (Minimal.poll h) o s)) = [] /\
  writes (trace_of (run (Minimal.poll h) o s)) = [].
Proof. by_cases; auto. Qed.



(** A dispatch is always preceded by the successful write of the id that
    is being looked at. *)
Lemma poll_write_first :
  match observed_poll o with
  | Some m => write_first (id m) (trace_of (run (Minimal.poll h) o s)) = true
  | None => filter is_dispatch (trace_of (run (Minimal.poll h) o s)) = []
  end.
Proof. by_cases; rewrite ?String.eqb_refl; reflexivity. Qed.

(** Whenever something of a dispatch happens, the variable and the cache
    file both hold the id that is being looked at. *)
Lemma poll_settled_first (m : message) :
  observed_poll o = Some m ->
  Forall (fun x => is_dispatch (fst x) = true ->
                   CACHE_FILE (snd x) = Cache (Some (id m)) /\
                   lastSeenId (snd x) = Some (id m))
         (history (Minimal.poll h) o s).
Proof.
  by_cases; repeat constructor; cbn; intros; try discriminate; auto.
Qed.



End MinimalCycle.

Section UnifiedCycle.

Variables t a : string.
Variables (o : oracle) (s : state).

Lemma pollRoom_returns : result_of (run (Unified.pollRoom t a) o s) = inr tt.
Proof. by_cases. Qed.

Lemma pollRoom_miss :
  observed_pollRoom o = None ->
  state_of (run (Unified.pollRoom t a) o s) = s /\
  filter is_dispatch (trace_of (run (Unified.pollRoom t a) o s)) = [] /\
  writes (trace_of (run (Unified.pollRoom t a) o s)) = [].
Proof. by_cases; auto. Qed.



Lemma pollRoom_write_first :
  match observed_pollRoom o with
  | Some m =>
      write_first (id m) (trace_of (run (Unified.pollRoom t a) o s)) = true
  | None =>
      filter is_dispatch (trace_of (run (Unified.pollRoom t a) o s)) = []
  end.
Proof. by_cases; rewrite ?String.eqb_refl; reflexivity. Qed.

Lemma pollRoom_settled_first (m : message) :
  observed_pollRoom o = Some m ->
  Forall (fun x => is_dispatch (fst x) = true ->
                   CACHE_FILE (snd x) = Cache (Some (id m)) /\
                   lastSeenId (snd x) = Some (id m))
         (history (Unified.pollRoom t a) o s).
Proof.
  by_cases; repeat constructor; cbn; intros; try discriminate; auto.
Qed.




End UnifiedCycle.

(** ** The sequential semantics inside the event loop *)

Lemma completes_get (o : oracle) (k : watermark -> Proc unit) s s' tr :
  completes o (k (lastSeenId s)) s s' tr -> completes o (GetLast k) s s' tr.
Proof.
  intros C. inversion C; subst.
  - now apply completes_done.
  - eapply completes_resume; eauto.
Qed.

Lemma completes_set (o : oracle) (w : watermark) (k : Proc unit) s s' tr :
  completes o k {| lastSeenId := w; CACHE_FILE := CACHE_FILE s |} s' tr ->
  completes o (SetLast w k) s s' tr.
Proof.
  intros C. inversion C; subst.
  - now apply completes_done.
  - eapply completes_resume; eauto.
Qed.

Lemma completes_console (o : oracle) (l : log) (k : Proc unit) s s' tr :
  completes o k s s' tr -> completes o (Console l k) s s' (EvLog l :: tr).
Proof.
  intros C. inversion C as [? ? ? ? A | ? ? ? ? ? ? ? ? ? A R C']; subst.
  - apply completes_done. simpl. now rewrite A.
  - change (EvLog l :: tr1 ++ tr0 ++ tr2)
      with ((EvLog l :: tr1) ++ tr0 ++ tr2).
    eapply completes_resume; eauto. simpl. now rewrite A.
Qed.

Lemma completes_write (o : oracle) (k : result unit -> Proc unit) s s' tr :
  completes o (k (write_result o))
    (write_cache (write_result o) (write_tears o) s) s' tr ->
  completes o (WriteFileSync k) s s'
    (EvWrite (lastSeenId s) (succeeded (write_result o)) :: tr).
Proof.
  intros C. inversion C as [? ? ? ? A | ? ? ? ? ? ? ? ? ? A R C']; subst.
  - apply completes_done. simpl. now rewrite A.
  - change (?e :: tr1 ++ tr0 ++ tr2) with ((e :: tr1) ++ tr0 ++ tr2).
    eapply completes_resume; eauto. simpl. now rewrite A.
Qed.

(** A cycle that the event loop runs on its own, with the promises settling
    as the oracle says, does what [run] computes. *)
Lemma run_completes (o : oracle) (p : Proc unit) (s : state) :
  completes o p s (state_of (run p o s)) (trace_of (run p o s)).
Proof.
  revert s.
  induction p as [u | e | k IH | w k IH | k IH | l k IH
                 | k IH | k IH | k IH | c k IH]; intros s.
  - now apply completes_done.
  - now apply completes_done.
  - apply completes_get. apply IH.
  - apply completes_set. apply IH.
  - specialize (IH (write_result o)
                   (write_cache (write_result o) (write_tears o) s)).
    apply completes_write in IH. unfold state_of, trace_of in *. simpl.
    destruct (run (k (write_result o)) o _) as [[s' tr] r]. exact IH.
  - specialize (IH s). apply completes_console with (l := l) in IH.
    unfold state_of, trace_of in *. simpl.
    destruct (run k o s) as [[s' tr] r]. exact IH.
  - specialize (IH (fetch_result o) s).
    unfold state_of, trace_of in *. simpl.
    destruct (run (k (fetch_result o)) o s) as [[s' tr] r]. simpl in *.
    eapply (completes_resume o _ s s [] _ _ [EvFetch]); eauto; reflexivity.
  - specialize (IH (json_result o) s).
    unfold state_of, trace_of in *. simpl.
    destruct (run (k (json_result o)) o s) as [[s' tr] r]. simpl in *.
    eapply (completes_resume o _ s s [] _ _ []); eauto; reflexivity.
  - specialize (IH (query_result o) s).
    unfold state_of, trace_of in *. simpl.
    destruct (run (k (query_result o)) o s) as [[s' tr] r]. simpl in *.
    eapply (completes_resume o _ s s [] _ _ [EvQuery]); eauto; reflexivity.
  - specialize (IH (exec_result o c) s).
    unfold state_of, trace_of in *. simpl.
    destruct (run (k (exec_result o c)) o s) as [[s' tr] r]. simpl in *.
    eapply (completes_resume o _ s s [] _ _
              [EvExec c (succeeded (exec_result o c))]); eauto; reflexivity.
Qed.

(** ** Idempotence of the timer loop *)








Section Idempotence.

Variable p : Proc unit.
Variable observed : oracle -> option message.

Hypothesis returns : forall o s, result_of (run p o s) = inr tt.

Hypothesis miss : forall o s,
  observed o = None -> state_of (run p o s) = s.

Hypothesis stays_quiet : forall o s m,
  observed o = Some m -> quiet (id m) s ->
  quiet (id m) (state_of (run p o s)) /\ dispatches (trace_of (run p o s)) = 0.

Hypothesis dispatch_settles : forall o s,
  dispatches (trace_of (run p o s)) <= 1 /\
  (dispatches (trace_of (run p o s)) <> 0 ->
   exists m, observed o = Some m /\ quiet (id m) (state_of (run p o s))).






End Idempotence.


(** ** What both pollers have in common *)

Lemma pollers_cases (h t a : string) (p : Proc unit)
      (obs : oracle -> option message) :
  In (p, obs) (pollers h t a) ->
  (p = Minimal.poll h /\ obs = observed_poll) \/
  (p = Unified.pollRoom t a /\ obs = observed_pollRoom).
Proof.
  intros [E | [E | []]]; injection E as <- <-; [left | right]; now split.
Qed.

Lemma pollers_return (h t a : string) p obs :
  In (p, obs) (pollers h t a) -> forall o s, result_of (run p o s) = inr tt.
Proof.
  intros I o s. destruct (pollers_cases _ _ _ _ _ I) as [[-> ->] | [-> ->]].
  - apply poll_returns.
  - apply pollRoom_returns.
Qed.




Lemma pollers_write_first (h t a : string) p obs :
  In (p, obs) (pollers h t a) ->
  forall o s,
  match obs o with
  | Some m => write_first (id m) (trace_of (run p o s)) = true
  | None => filter is_dispatch (trace_of (run p o s)) = []
  end.
Proof.
  intros I o s. destruct (pollers_cases _ _ _ _ _ I) as [[-> ->] | [-> ->]].
  - apply poll_write_first.
  - apply pollRoom_write_first.
Qed.





(** ** Idempotence across polls and restarts *)




(** The sample run does dispatch once for [m2]: the bound is reached. *)
Example idempotent_dispatch_reached :
  dispatch_count observed_poll "m2"
    (cycles_of
       (loop (Minimal.poll "bot")
          [Fire (Samples.serve Samples.m1); Fire (Samples.serve Samples.m2);
           Restart; Fire (Samples.serve Samples.m2)]
          (Samples.at_id "m1"))) = 1.
Proof. reflexivity. Qed.

(** ** Ordering of the cache write and the dispatch *)

Lemma write_first_sound (i : string) (tr : list event) :
  write_first i tr = true ->
  forall pre e post,
  tr = pre ++ e :: post -> is_dispatch e = true ->
  In (EvWrite (Some i) true) pre.
Proof.
  induction tr as [|a tr IH]; intros W pre e post E D.
  - destruct pre; discriminate.
  - destruct pre as [|a' pre]; simpl in E; injection E as <- E.
    + simpl in W. now rewrite D in W.
    + simpl in W. destruct (is_dispatch a); [discriminate|].
      destruct a as [| | |[j|] [|]|]; try (right; eapply IH; eauto; fail).
      destruct (j =? i) eqn:J.
      * left. apply String.eqb_eq in J. now subst.
      * right. eapply IH; eauto.
Qed.

(** The events of [history] are the events of [run]. *)
Lemma history_trace {A : Type} (p : Proc A) (o : oracle) (s : state) :
  map fst (history p o s) = trace_of (run p o s).
Proof.
  revert s.
  induction p as [u | e | k IH | w k IH | k IH | l k IH
                 | k IH | k IH | k IH | c k IH]; intros s;
    try reflexivity; cbn [history run].
  - apply IH.
  - apply IH.
  - specialize (IH (write_result o)
                   (write_cache (write_result o) (write_tears o) s)).
    unfold trace_of in *.
    destruct (run (k (write_result o)) o _) as [[s' tr] r].
    cbn in *. now rewrite IH.
  - specialize (IH s). unfold trace_of in *.
    destruct (run k o s) as [[s' tr] r]. cbn in *. now rewrite IH.
  - specialize (IH (fetch_result o) s). unfold trace_of in *.
    destruct (run (k (fetch_result o)) o s) as [[s' tr] r].
    cbn in *. now rewrite IH.
  - apply IH.
  - specialize (IH (query_result o) s). unfold trace_of in *.
    destruct (run (k (query_result o)) o s) as [[s' tr] r].
    cbn in *. now rewrite IH.
  - specialize (IH (exec_result o c) s). unfold trace_of in *.
    destruct (run (k (exec_result o c)) o s) as [[s' tr] r].
    cbn in *. now rewrite IH.
Qed.

Lemma pollers_settled_first (h t a : string) p obs :
  In (p, obs) (pollers h t a) ->
  forall o s m,
  obs o = Some m ->
  Forall (fun x => is_dispatch (fst x) = true ->
                   CACHE_FILE (snd x) = Cache (Some (id m)) /\
                   lastSeenId (snd x) = Some (id m))
         (history p o s).
Proof.
  intros I o s m. destruct (pollers_cases _ _ _ _ _ I) as [[-> ->] | [-> ->]].
  - apply poll_settled_first.
  - apply pollRoom_settled_first.
Qed.

(** ** Segments of the event loop *)

Lemma split_after (tr0 tr pre post : list event) (ev : event) :
  Forall (fun e => is_dispatch_start e = false) tr0 ->
  tr0 ++ tr = pre ++ ev :: post ->
  is_dispatch_start ev = true ->
  exists pre', pre = tr0 ++ pre' /\ tr = pre' ++ ev :: post.
Proof.
  intros F. revert pre. induction F as [|e0 tr0 E F IH]; intros pre S D.
  - exists pre. split; [reflexivity | exact S].
  - destruct pre as [|e1 pre]; simpl in S; injection S as <- S.
    + congruence.
    + destruct (IH pre S D) as [pre' [-> T]]. exists pre'. now split.
Qed.

(** An orderly segment, run from a state that agrees with what is known of
    the variable and the file, starts a dispatch only after the write of
    the id that arrived, ends with that id in the variable and in the file,
    and leaves a continuation that is ready. *)
Lemma orderly_advance (p : Proc unit) :
  forall (x held : option string) (started : bool) (var : option watermark)
         (wr : result unit) (tears : bool) (s s' : state) (tr : list event)
         (q : option (Proc unit)),
  orderly x held started var p ->
  (forall v, var = Some v -> lastSeenId s = v) ->
  (forall i, held = Some i ->
             lastSeenId s = Some i /\ CACHE_FILE s = Cache (Some i)) ->
  advance p wr tears s = (s', tr, q) ->
  (forall pre ev post,
     tr = pre ++ ev :: post -> is_dispatch_start ev = true ->
     exists i,
       x = Some i /\
       (held = Some i \/ In (EvWrite (Some i) true) pre) /\
       lastSeenId s' = Some i /\ CACHE_FILE s' = Cache (Some i)) /\
  (started = true -> s' = s) /\
  (forall c, q = Some c -> ready c).
Proof.
  induction p as [u | e | k IH | w k IH | k IH | l k IH
                 | k IH | k IH | k IH | c k IH];
    intros x held started var wr tears s s' tr q O V H A; cbn in A.
  - injection A as <- <- <-. repeat split; try discriminate.
    intros pre ev post E. destruct pre; discriminate.
  - injection A as <- <- <-. repeat split; try discriminate.
    intros pre ev post E. destruct pre; discriminate.
  - apply (IH (lastSeenId s) x held started var wr tears s s' tr q);
      auto.
  - destruct O as [-> O].
    assert (V' : forall v, Some w = Some v ->
                 lastSeenId {| lastSeenId := w; CACHE_FILE := CACHE_FILE s |}
                 = v) by (intros v E; now injection E as <-).
    assert (H' : forall i, @None string = Some i ->
                 lastSeenId {| lastSeenId := w; CACHE_FILE := CACHE_FILE s |}
                 = Some i /\
                 CACHE_FILE {| lastSeenId := w; CACHE_FILE := CACHE_FILE s |}
                 = Cache (Some i)) by discriminate.
    destruct (IH x None false (Some w) wr tears _ s' tr q O V' H' A)
      as [P [_ Q]].
    split; [|split; [discriminate | exact Q]].
    intros pre ev post E D. destruct (P pre ev post E D) as [i [X [W S]]].
    exists i. split; [exact X|]. split; [|exact S].
    destruct W as [W | W]; [discriminate | now right].
  - destruct O as [-> O]. specialize (O wr).
    destruct (advance (k wr) wr tears (write_cache wr tears s))
      as [[s1 tr1] q1] eqn:A1.
    injection A as <- <- <-.
    assert (L : lastSeenId (write_cache wr tears s) = lastSeenId s).
    { unfold write_cache. destruct (succeeded wr), tears; reflexivity. }
    assert (V' : forall v, var = Some v ->
                 lastSeenId (write_cache wr tears s) = v)
      by (intros v E; rewrite L; now apply V).
    assert (H' : forall i, written wr var = Some i ->
                 lastSeenId (write_cache wr tears s) = Some i /\
                 CACHE_FILE (write_cache wr tears s) = Cache (Some i)).
    { intros i E. unfold written in E.
      destruct (succeeded wr) eqn:W; [|discriminate].
      destruct var as [[j|]|]; try discriminate. injection E as ->.
      unfold write_cache. rewrite W. cbn. rewrite (V (Some i) eq_refl).
      now split. }
    destruct (IH wr x (written wr var) false var wr tears _ s1 tr1 q1 O V' H'
                A1) as [P [_ Q]].
    split; [|split; [discriminate | exact Q]].
    intros pre ev post E D.
    destruct pre as [|e0 pre]; simpl in E; injection E as <- E.
    + discriminate.
    + destruct (P pre ev post E D) as [i [X [W S]]].
      exists i. split; [exact X|]. split; [right | exact S].
      destruct W as [W | W]; [left | now right].
      unfold written in W. destruct (succeeded wr); [|discriminate].
      destruct var as [[j|]|]; try discriminate. injection W as ->.
      now rewrite (V (Some i) eq_refl).
  - destruct (advance k wr tears s) as [[s1 tr1] q1] eqn:A1.
    injection A as <- <- <-. cbn [orderly] in O.
    destruct (is_dispatch_start (EvLog l)) eqn:D0.
    + destruct O as [[i [X W]] O].
      destruct (IH x held true var wr tears s s1 tr1 q1 O V H A1)
        as [P [S Q]].
      specialize (S eq_refl). subst s1.
      split; [|split; [reflexivity | exact Q]].
      intros pre ev post E D.
      destruct pre as [|e0 pre]; simpl in E; injection E as <- E.
      * exists i. split; [exact X|]. split; [now left|]. now apply H.
      * destruct (P pre ev post E D) as [i' [X' [W' S']]].
        exists i'. split; [exact X'|]. split; [|exact S'].
        destruct W' as [W' | W']; [now left | right; now right].
    + destruct (IH x held started var wr tears s s1 tr1 q1 O V H A1)
        as [P [S Q]].
      split; [|split; [exact S | exact Q]].
      intros pre ev post E D.
      destruct pre as [|e0 pre]; simpl in E; injection E as <- E.
      * congruence.
      * destruct (P pre ev post E D) as [i' [X' [W' S']]].
        exists i'. split; [exact X'|]. split; [|exact S'].
        destruct W' as [W' | W']; [now left | right; now right].
  - injection A as <- <- <-. split; [|split; [reflexivity|]].
    + intros pre ev post E. destruct pre; discriminate.
    + intros c E. injection E as <-. intros v c' tr0 R.
      destruct v; try discriminate. injection R as <- <-.
      split; [repeat constructor | apply O].
  - injection A as <- <- <-. split; [|split; [reflexivity|]].
    + intros pre ev post E. destruct pre; discriminate.
    + intros c E. injection E as <-. intros v c' tr0 R.
      destruct v; try discriminate. injection R as <- <-.
      split; [constructor | apply O].
  - injection A as <- <- <-. split; [|split; [reflexivity|]].
    + intros pre ev post E. destruct pre; discriminate.
    + intros c E. injection E as <-. intros v c' tr0 R.
      destruct v; try discriminate. injection R as <- <-.
      split; [repeat constructor | apply O].
  - injection A as <- <- <-. split; [|split; [reflexivity|]].
    + intros pre ev post E. destruct pre; discriminate.
    + intros c0 E. injection E as <-. intros v c' tr0 R.
      destruct v; try discriminate. injection R as <- <-.
      split; [repeat constructor | apply O].
Qed.

Lemma firstn_In (l : list (Proc unit)) (n : nat) (c : Proc unit) :
  In c (firstn n l) -> In c l.
Proof.
  revert n; induction l as [|a l IH]; intros [|n] I; simpl in *;
    try contradiction.
  destruct I as [I | I]; [now left | right; eapply IH; eauto].
Qed.

Lemma skipn_In (l : list (Proc unit)) (n : nat) (c : Proc unit) :
  In c (skipn n l) -> In c l.
Proof.
  revert n; induction l as [|a l IH]; intros [|n] I; simpl in *;
    try contradiction; try exact I.
  right. eapply IH; eauto.
Qed.

Lemma Forall_replace (P : Proc unit -> Prop) (l : list (Proc unit)) (i : nat)
      (q : option (Proc unit)) :
  Forall P l -> (forall c, q = Some c -> P c) ->
  Forall P (firstn i l ++ suspended q ++ skipn (S i) l).
Proof.
  intros F Q. rewrite Forall_forall in F. apply Forall_forall. intros c I.
  apply in_app_or in I. destruct I as [I | I].
  - apply F. eapply firstn_In; eauto.
  - apply in_app_or in I. destruct I as [I | I].
    + destruct q as [c0|]; simpl in I; [|contradiction].
      destruct I as [<- | []]. now apply Q.
    + apply F. eapply skipn_In; eauto.
Qed.

Section Segments.

Variable p : Proc unit.

Hypothesis cycle_orderly : orderly None None false None p.

Lemma nothing_known (w : world) (v : watermark) :
  @None watermark = Some v -> lastSeenId (memory w) = v.
Proof. discriminate. Qed.

Lemma nothing_held (w : world) (i : string) :
  @None string = Some i ->
  lastSeenId (memory w) = Some i /\ CACHE_FILE (memory w) = Cache (Some i).
Proof. discriminate. Qed.

Lemma step_orderly (e : occurrence) (w : world) :
  Forall ready (inflight w) ->
  Forall ready (inflight (step p e w)) /\
  exists tr,
    output (step p e w) = output w ++ tr /\
    forall pre ev post,
      tr = pre ++ ev :: post -> is_dispatch_start ev = true ->
      exists m,
        arrived e = Some m /\
        In (EvWrite (Some (id m)) true) pre /\
        lastSeenId (memory (step p e w)) = Some (id m) /\
        CACHE_FILE (memory (step p e w)) = Cache (Some (id m)).
Proof.
  intros F. destruct e as [wr tears | i v wr tears]; cbn [step arrived].
  - destruct (advance p wr tears (memory w)) as [[s' tr] q] eqn:A.
    destruct (orderly_advance p None None false None wr tears _ _ _ _
                cycle_orderly (nothing_known w) (nothing_held w) A) as [P [_ Q]].
    cbn. split.
    + apply Forall_app. split; [exact F|].
      destruct q as [c|]; simpl; [|constructor].
      constructor; [now apply Q | constructor].
    + exists tr. split; [reflexivity|]. intros pre ev post E D.
      destruct (P pre ev post E D) as [j [X _]]. discriminate.
  - destruct (nth_error (inflight w) i) as [c|] eqn:N.
    2:{ split; [exact F|]. exists []. split; [now rewrite app_nil_r|].
        intros pre ev post E. destruct pre; discriminate. }
    assert (R : ready c).
    { rewrite Forall_forall in F. apply F. eapply nth_error_In; eauto. }
    destruct (resume c v) as [[c' tr0]|] eqn:V.
    2:{ split; [exact F|]. exists []. split; [now rewrite app_nil_r|].
        intros pre ev post E. destruct pre; discriminate. }
    destruct (R v c' tr0 V) as [T O].
    destruct (advance c' wr tears (memory w)) as [[s' tr] q] eqn:A.
    destruct (orderly_advance c' _ None false None wr tears _ _ _ _ O
                (nothing_known w) (nothing_held w) A) as [P [_ Q]].
    cbn. split; [now apply Forall_replace|].
    exists (tr0 ++ tr). split; [reflexivity|]. intros pre ev post E D.
    destruct (split_after _ _ _ _ _ T E D) as [pre' [-> E']].
    destruct (P pre' ev post E' D) as [j [X [W S]]].
    destruct (delivered v) as [m|]; [|discriminate].
    injection X as <-. exists m. split; [reflexivity|].
    split; [|exact S].
    destruct W as [W | W]; [discriminate|].
    apply in_or_app. now right.
Qed.

Lemma steps_ready (es : list occurrence) (w : world) :
  Forall ready (inflight w) -> Forall ready (inflight (steps p es w)).
Proof.
  revert w. induction es as [|e es IH]; intros w F; [exact F|].
  unfold steps in *. cbn [fold_left]. apply IH. now apply step_orderly.
Qed.

End Segments.

Lemma pollers_orderly (h t a : string) p obs :
  In (p, obs) (pollers h t a) -> orderly None None false None p.
Proof.
  intros I. destruct (pollers_cases _ _ _ _ _ I) as [[-> ->] | [-> ->]].
  - unfold Minimal.poll. cbn. intros r.
    repeat (cycle_simpl; unfold settle, delivered, first_row in *;
            first [split_scrutinee | intro | split
                  | eexists; split; reflexivity]);
      auto.
  - unfold Unified.pollRoom, Unified.injectPrompt. cbn. intros r.
    repeat (cycle_simpl; unfold settle, delivered, first_row in *;
            first [split_scrutinee | intro | split
                  | eexists; split; reflexivity]);
      auto.
Qed.

(** C6. In every cycle of either poller, whatever precedes a dispatch event
    (the start of the injection or any shell command) contains the
    successful [fs.writeFileSync] of the id of the message being looked at,
    and at the time of that event the cache file and the variable hold that
    id; a cycle that looks at no message has no dispatch event at all.
    [history] is the cycle of [run] with the state each event happens in.

    The same holds in the event loop, whatever cycles are in flight and
    however their answers interleave: a dispatch is only started in the
    step in which its message arrived, after the successful write of that
    message's id in the same step, and when the step gives the control back
    the variable and the cache file hold that id. *)
Theorem write_precedes_dispatch (h t a : string) p obs :
  In (p, obs) (pollers h t a) ->
  (forall (o : oracle) (s : state),
     map fst (history p o s) = trace_of (run p o s) /\
     forall (pre : list (event * state)) (e : event) (now : state)
            (post : list (event * state)),
     history p o s = pre ++ (e, now) :: post ->
     is_dispatch e = true ->
     exists m,
       obs o = Some m /\
       In (EvWrite (Some (id m)) true) (map fst pre) /\
       CACHE_FILE now = Cache (Some (id m)) /\
       lastSeenId now = Some (id m)) /\
  (forall (f : file) (es : list occurrence) (e : occurrence),
     exists tr,
       output (step p e (steps p es (boot f)))
       = output (steps p es (boot f)) ++ tr /\
       forall pre ev post,
         tr = pre ++ ev :: post -> is_dispatch_start ev = true ->
         exists m,
           arrived e = Some m /\
           In (EvWrite (Some (id m)) true) pre /\
           lastSeenId (memory (step p e (steps p es (boot f))))
           = Some (id m) /\
           CACHE_FILE (memory (step p e (steps p es (boot f))))
           = Cache (Some (id m))).
Proof.
  intros I. split.
  - intros o s. split; [apply history_trace|].
    intros pre e now post E D.
    assert (T : trace_of (run p o s) = map fst pre ++ e :: map fst post).
    { rewrite <- history_trace, E, map_app. reflexivity. }
    pose proof (pollers_write_first _ _ _ _ _ I o s) as W.
    pose proof (pollers_settled_first _ _ _ _ _ I o s) as F.
    destruct (obs o) as [m|].
    + exists m. split; [reflexivity|]. split.
      * eapply write_first_sound; eauto.
      * specialize (F m eq_refl). rewrite Forall_forall in F.
        apply (F (e, now)); [|exact D].
        rewrite E. apply in_or_app. right. now left.
    + exfalso. rewrite T in W. rewrite filter_app in W. simpl in W.
      rewrite D in W. symmetry in W. now apply app_cons_not_nil in W.
  - intros f es e.
    pose proof (pollers_orderly _ _ _ _ _ I) as O.
    apply (step_orderly p O). apply (steps_ready p O). constructor.
Qed.

Lemma write_precedes_dispatch_witness :
  exists m,
    observed_pollRoom (Samples.serve Samples.m2) = Some m /\
    In (EvWrite (Some (id m)) true) [EvQuery; EvWrite (Some "m2") true;
        EvLog (LogTriggerMatched (Some "please Check Room"))] /\
    CACHE_FILE (Samples.at_id "m2") = Cache (Some (id m)) /\
    lastSeenId (Samples.at_id "m2") = Some (id m).
Proof.
  refine (proj2 (proj1 (write_precedes_dispatch "bot" "claude" "bot" _ _
                          (or_intror (or_introl eq_refl)))
                   (Samples.serve Samples.m2) (Samples.at_id "m1"))
            [(EvQuery, Samples.at_id "m1");
             (EvWrite (Some "m2") true, Samples.at_id "m2");
             (EvLog (LogTriggerMatched (Some "please Check Room")),
              Samples.at_id "m2")]
            (EvLog (LogInjectingSession "claude")) (Samples.at_id "m2")
            _ _ _); reflexivity.
Defined.

(** ** First observation *)

Lemma poll_first (h : string) (o : oracle) (s : state) (m : message) :
  observed_poll o = Some m -> falsy (lastSeenId s) = true ->
  filter is_dispatch (trace_of (run (Minimal.poll h) o s)) = [] /\
  lastSeenId (state_of (run (Minimal.poll h) o s)) = Some (id m) /\
  (write_result o = inr tt ->
   CACHE_FILE (state_of (run (Minimal.poll h) o s)) = Cache (Some (id m))).
Proof. by_cases; repeat split; intros; congruence. Qed.

Lemma pollRoom_first (t a : string) (o : oracle) (s : state) (m : message) :
  observed_pollRoom o = Some m -> falsy (lastSeenId s) = true ->
  filter is_dispatch (trace_of (run (Unified.pollRoom t a) o s)) = [] /\
  lastSeenId (state_of (run (Unified.pollRoom t a) o s)) = Some (id m) /\
  (write_result o = inr tt ->
   CACHE_FILE (state_of (run (Unified.pollRoom t a) o s))
   = Cache (Some (id m))).
Proof. by_cases; repeat split; intros; congruence. Qed.

(** C7. With no watermark yet ([lastSeenId] is [null], or empty, which the
    scripts do not tell apart), the first message a cycle looks at causes
    no dispatch event whatever its body is, and the watermark becomes its
    id; the cache file holds that id as soon as the write succeeds. *)
Theorem first_message_never_dispatches (h t a : string) p obs :
  In (p, obs) (pollers h t a) ->
  forall (o : oracle) (s : state) (m : message),
  obs o = Some m ->
  falsy (lastSeenId s) = true ->
  filter is_dispatch (trace_of (run p o s)) = [] /\
  lastSeenId (state_of (run p o s)) = Some (id m) /\
  (write_result o = inr tt ->
   CACHE_FILE (state_of (run p o s)) = Cache (Some (id m))).
Proof.
  intros I o s m. destruct (pollers_cases _ _ _ _ _ I) as [[-> ->] | [-> ->]].
  - apply poll_first.
  - apply pollRoom_first.
Qed.

Lemma first_message_never_dispatches_witness :
  let out :=
    run (Minimal.poll "bot") (Samples.serve Samples.m2) Samples.fresh in
  filter is_dispatch (trace_of out) = [] /\
  lastSeenId (state_of out) = Some "m2" /\
  CACHE_FILE (state_of out) = Cache (Some "m2").
Proof.
  intros out.
  destruct (first_message_never_dispatches "bot" "claude" "bot" _ _
              (or_introl eq_refl) (Samples.serve Samples.m2) Samples.fresh
              Samples.m2 eq_refl eq_refl) as [A [B C]].
  split; [exact A | split; [exact B | exact (C eq_refl)]].
Defined.

(** ** Failures *)






(** ** Self-authorship and trigger tests *)

(** C5, as the code has it.  The minimal poller tests the raw body for the
    handle, letter case included.  The unified poller lower-cases both the
    handle (at start-up) and the body, so its test ignores letter case: for
    a handle and a body of ASCII characters it holds exactly when the body
    contains the letters of the handle in some letter case, and so whenever
    the body contains any case variant of the handle. *)
Theorem self_authorship_tests (h a b : string) :
  (Minimal.isSelfAuthored h b = true <->
   exists pre post, b = (pre ++ h ++ post)%string) /\
  (ascii_only a = true -> ascii_only b = true ->
   (Unified.isSelfAuthored a (Some b) = true <->
    exists pre v post,
      b = (pre ++ v ++ post)%string /\ same_letters v a) /\
   (forall v, same_letters v a -> includes b v = true ->
              Unified.isSelfAuthored a (Some b) = true)).
Proof.
  split; [apply includes_spec|]. intros _ _.
  assert (B : forall pre v post,
            b = (pre ++ v ++ post)%string -> same_letters v a ->
            Unified.isSelfAuthored a (Some b) = true).
  { intros pre v post -> L. apply includes_spec.
    exists (toLowerCase pre), (toLowerCase post).
    unfold Unified.bodyStr, Unified.orEmpty, Unified.BOT_HANDLE.
    rewrite !toLowerCase_app. now rewrite L. }
  split; [split|].
  - intros S. apply includes_spec in S. destruct S as [x [y E]].
    unfold Unified.bodyStr, Unified.orEmpty, Unified.BOT_HANDLE in E.
    apply toLowerCase_split in E. destruct E as [pre [rest [-> [_ E]]]].
    apply toLowerCase_split in E. destruct E as [v [post [-> [L _]]]].
    exists pre, v, post. split; [reflexivity | exact L].
  - intros [pre [v [post [E L]]]]. now apply (B pre v post).
  - intros v L I. apply includes_spec in I. destruct I as [pre [post E]].
    now apply (B pre v post).
Qed.

Lemma self_authorship_tests_witness :
  Minimal.isSelfAuthored "bot" "BOT: please check room" = false /\
  Unified.isSelfAuthored "Bot" (Some "BOT: please check room") = true.
Proof.
  destruct (self_authorship_tests "bot" "Bot" "BOT: please check room")
    as [M U].
  split.
  - destruct (Minimal.isSelfAuthored "bot" "BOT: please check room") eqn:E;
      [|reflexivity].
    destruct (proj1 M eq_refl) as [pre [post P]].
    assert (I : includes "BOT: please check room" "bot" = true)
      by (apply includes_spec; now exists pre, post).
    discriminate I.
  - apply (proj2 (U eq_refl eq_refl) "BOT"); reflexivity.
Defined.

(** C5 as stated fails in the unified poller: the body has the handle in
    upper case only, and is still taken for the poller's own message. *)
Lemma self_authorship_ignores_case :
  includes "BOT: please check room" (Unified.BOT_HANDLE "bot") = false /\
  Unified.isSelfAuthored "bot" (Some "BOT: please check room") = true /\
  filter is_dispatch
    (trace_of (run (Unified.pollRoom "claude" "bot")
                 (Samples.serve Samples.m4) (Samples.at_id "m1"))) = [].
Proof. repeat split; reflexivity. Qed.

Lemma unified_self_of_raw (a b : string) :
  includes b (Unified.BOT_HANDLE a) = true ->
  Unified.isSelfAuthored a (Some b) = true.
Proof.
  intros H. apply includes_toLowerCase in H.
  unfold Unified.BOT_HANDLE in H. rewrite toLowerCase_idem in H. exact H.
Qed.

(** A mention can only trigger on a message that is not taken for the
    poller's own, and a mention makes it so: the second half of either
    trigger test never decides. *)
Lemma minimal_trigger_phrase (h b : string) :
  Minimal.isSelfAuthored h b = false ->
  includes (toLowerCase b) "check room" = true \/
  includes b ("@" ++ h) = true ->
  Minimal.isTriggerMatch h b = true.
Proof.
  intros S [P | M]; unfold Minimal.isTriggerMatch.
  - now rewrite P.
  - apply includes_mention in M. unfold Minimal.isSelfAuthored in S. congruence.
Qed.

Lemma unified_trigger_phrase (a b : string) :
  Unified.isSelfAuthored a (Some b) = false ->
  includes (toLowerCase b) "check room" = true \/
  includes b ("@" ++ Unified.BOT_HANDLE a) = true ->
  Unified.isTriggerMatch a (Some b) = true.
Proof.
  intros S [P | M]; unfold Unified.isTriggerMatch, Unified.bodyStr; simpl.
  - now rewrite P.
  - apply includes_mention, unified_self_of_raw in M. congruence.
Qed.

Section NewMessage.

Variables (o : oracle) (s : state) (m : message).

Hypothesis has_watermark : falsy (lastSeenId s) = false.
Hypothesis is_new : differs (id m) (lastSeenId s) = true.

Lemma poll_trigger (h b : string) :
  observed_poll o = Some m -> body m = Some b ->
  Minimal.isSelfAuthored h b = false ->
  Minimal.isTriggerMatch h b = true ->
  write_result o = inr tt ->
  dispatches (trace_of (run (Minimal.poll h) o s)) = 1 /\
  writes (trace_of (run (Minimal.poll h) o s)) = [EvWrite (Some (id m)) true] /\
  state_of (run (Minimal.poll h) o s) =
  {| lastSeenId := Some (id m); CACHE_FILE := Cache (Some (id m)) |}.
Proof.
  revert has_watermark is_new. by_cases; auto.
Qed.

Lemma pollRoom_trigger (t a : string) :
  observed_pollRoom o = Some m ->
  Unified.isSelfAuthored a (body m) = false ->
  Unified.isTriggerMatch a (body m) = true ->
  write_result o = inr tt ->
  dispatches (trace_of (run (Unified.pollRoom t a) o s)) = 1 /\
  writes (trace_of (run (Unified.pollRoom t a) o s))
  = [EvWrite (Some (id m)) true] /\
  state_of (run (Unified.pollRoom t a) o s) =
  {| lastSeenId := Some (id m); CACHE_FILE := Cache (Some (id m)) |}.
Proof.
  revert has_watermark is_new. by_cases; auto.
Qed.

(** What a dispatch issues: the first command of the script at least, and
    the whole script when no command fails. *)
Lemma poll_trigger_commands (h b : string) :
  observed_poll o = Some m -> body m = Some b ->
  Minimal.isSelfAuthored h b = false ->
  Minimal.isTriggerMatch h b = true ->
  write_result o = inr tt ->
  hd_error (commands (trace_of (run (Minimal.poll h) o s)))
  = Some (SendKeysLiteral "claude" "check room") /\
  ((forall c, exec_result o c = inr tt) ->
   commands (trace_of (run (Minimal.poll h) o s)) = script false "claude").
Proof.
  revert has_watermark is_new. by_cases; (split; [reflexivity|]);
    intros A; try reflexivity;
    match goal with
    | H : exec_result o _ = inl _ |- _ => rewrite A in H; discriminate
    end.
Qed.

Lemma pollRoom_trigger_commands (t a : string) :
  observed_pollRoom o = Some m ->
  Unified.isSelfAuthored a (body m) = false ->
  Unified.isTriggerMatch a (body m) = true ->
  write_result o = inr tt ->
  hd_error (commands (trace_of (run (Unified.pollRoom t a) o s)))
  = Some (HasSession t) /\
  ((forall c, exec_result o c = inr tt) ->
   commands (trace_of (run (Unified.pollRoom t a) o s)) = script true t).
Proof.
  revert has_watermark is_new. by_cases; (split; [reflexivity|]);
    intros A; try reflexivity;
    match goal with
    | H : exec_result o _ = inl _ |- _ => rewrite A in H; discriminate
    end.
Qed.

(** The minimal poller does not touch anything for a message it takes for
    its own. *)
Lemma poll_self (h b : string) :
  observed_poll o = Some m -> body m = Some b ->
  Minimal.isSelfAuthored h b = true ->
  run (Minimal.poll h) o s = (s, [EvLog LogPolling; EvFetch], inr tt).
Proof.
  revert has_watermark is_new. by_cases; reflexivity.
Qed.


End NewMessage.

(** C2, as the code has it.  The watermark is set (not falsy) and differs
    from the id of the message the cycle looks at; the body is not taken for
    the poller's own by that poller's test (case-sensitive in the minimal
    poller, case-blind in the unified one); it contains "check room" in any
    letter case or a mention of the handle; the cache write succeeds.  Then
    the cycle starts exactly one dispatch and performs exactly one write,
    of that id; the dispatch issues the first command of the script, and
    the whole script once when no command fails.  For the unified poller,
    which lower-cases the handle and the body before its tests, the handle
    and the body are of ASCII characters. *)
Theorem trigger_dispatches_once (h t a : string) (o : oracle) (s : state)
        (m : message) (b : string) :
  falsy (lastSeenId s) = false ->
  differs (id m) (lastSeenId s) = true ->
  body m = Some b ->
  write_result o = inr tt ->
  (observed_poll o = Some m ->
   Minimal.isSelfAuthored h b = false ->
   includes (toLowerCase b) "check room" = true \/
   includes b ("@" ++ h) = true ->
   dispatches (trace_of (run (Minimal.poll h) o s)) = 1 /\
   writes (trace_of (run (Minimal.poll h) o s))
   = [EvWrite (Some (id m)) true] /\
   state_of (run (Minimal.poll h) o s) =
   {| lastSeenId := Some (id m); CACHE_FILE := Cache (Some (id m)) |} /\
   hd_error (commands (trace_of (run (Minimal.poll h) o s)))
   = Some (SendKeysLiteral "claude" "check room") /\
   ((forall c, exec_result o c = inr tt) ->
    commands (trace_of (run (Minimal.poll h) o s)) = script false "claude")) /\
  (observed_pollRoom o = Some m ->
   ascii_only a = true -> ascii_only b = true ->
   Unified.isSelfAuthored a (Some b) = false ->
   includes (toLowerCase b) "check room" = true \/
   includes b ("@" ++ Unified.BOT_HANDLE a) = true ->
   dispatches (trace_of (run (Unified.pollRoom t a) o s)) = 1 /\
   writes (trace_of (run (Unified.pollRoom t a) o s))
   = [EvWrite (Some (id m)) true] /\
   state_of (run (Unified.pollRoom t a) o s) =
   {| lastSeenId := Some (id m); CACHE_FILE := Cache (Some (id m)) |} /\
   hd_error (commands (trace_of (run (Unified.pollRoom t a) o s)))
   = Some (HasSession t) /\
   ((forall c, exec_result o c = inr tt) ->
    commands (trace_of (run (Unified.pollRoom t a) o s)) = script true t)).
Proof.
  intros W N B K. split.
  - intros O S T.
    assert (M : Minimal.isTriggerMatch h b = true)
      by now apply minimal_trigger_phrase.
    destruct (poll_trigger o s m W N h b O B S M K) as [P1 [P2 P3]].
    destruct (poll_trigger_commands o s m W N h b O B S M K) as [P4 P5].
    repeat split; assumption.
  - intros O _ _ S T. rewrite <- B in S.
    assert (M : Unified.isTriggerMatch a (body m) = true)
      by (rewrite B in *; now apply unified_trigger_phrase).
    destruct (pollRoom_trigger o s m W N t a O S M K) as [P1 [P2 P3]].
    destruct (pollRoom_trigger_commands o s m W N t a O S M K) as [P4 P5].
    repeat split; assumption.
Qed.

Lemma trigger_dispatches_once_witness :
  (dispatches
     (trace_of (run (Minimal.poll "bot") (Samples.serve Samples.m2)
                  (Samples.at_id "m1"))) = 1 /\
   writes
     (trace_of (run (Minimal.poll "bot") (Samples.serve Samples.m2)
                  (Samples.at_id "m1"))) = [EvWrite (Some "m2") true] /\
   state_of (run (Minimal.poll "bot") (Samples.serve Samples.m2)
               (Samples.at_id "m1")) = Samples.at_id "m2" /\
   commands
     (trace_of (run (Minimal.poll "bot") (Samples.serve Samples.m2)
                  (Samples.at_id "m1"))) = script false "claude") /\
  (dispatches
     (trace_of (run (Unified.pollRoom "claude" "Bot") (Samples.serve Samples.m2)
                  (Samples.at_id "m1"))) = 1 /\
   writes
     (trace_of (run (Unified.pollRoom "claude" "Bot") (Samples.serve Samples.m2)
                  (Samples.at_id "m1"))) = [EvWrite (Some "m2") true] /\
   state_of (run (Unified.pollRoom "claude" "Bot") (Samples.serve Samples.m2)
               (Samples.at_id "m1")) = Samples.at_id "m2" /\
   commands
     (trace_of (run (Unified.pollRoom "claude" "Bot") (Samples.serve Samples.m2)
                  (Samples.at_id "m1"))) = script true "claude").
Proof.
  destruct (trigger_dispatches_once "bot" "claude" "Bot"
              (Samples.serve Samples.m2) (Samples.at_id "m1") Samples.m2
              "please Check Room" eq_refl eq_refl eq_refl eq_refl) as [A B].
  split.
  - destruct (A eq_refl eq_refl (or_introl eq_refl)) as [A1 [A2 [A3 [_ A5]]]].
    split; [exact A1 | split; [exact A2 | split; [exact A3|]]].
    apply A5. reflexivity.
  - destruct (B eq_refl eq_refl eq_refl eq_refl (or_introl eq_refl))
      as [B1 [B2 [B3 [_ B5]]]].
    split; [exact B1 | split; [exact B2 | split; [exact B3|]]].
    apply B5. reflexivity.
Defined.

(** C2 as stated fails in the unified poller: the body does not contain the
    handle, it does contain the phrase, the message is new, the write
    succeeds, and nothing is dispatched. *)
Lemma trigger_suppressed_by_case_blind_test :
  observed_pollRoom (Samples.serve Samples.m4) = Some Samples.m4 /\
  falsy (lastSeenId (Samples.at_id "m1")) = false /\
  differs (id Samples.m4) (lastSeenId (Samples.at_id "m1")) = true /\
  body Samples.m4 = Some "BOT: please check room" /\
  includes "BOT: please check room" (Unified.BOT_HANDLE "bot") = false /\
  includes (toLowerCase "BOT: please check room") "check room" = true /\
  write_result (Samples.serve Samples.m4) = inr tt /\
  dispatches
    (trace_of (run (Unified.pollRoom "claude" "bot") (Samples.serve Samples.m4)
                 (Samples.at_id "m1"))) = 0.
Proof. repeat split; reflexivity. Qed.




(** ** Dispatch against an unreachable session *)







(** ** Timer ticks and cycles in flight *)

Lemma tick_suspends (h t a : string) p obs :
  In (p, obs) (pollers h t a) ->
  forall wr tears s, exists tr c, advance p wr tears s = (s, tr, Some c).
Proof.
  intros I wr tears s.
  destruct (pollers_cases _ _ _ _ _ I) as [[-> ->] | [-> ->]];
    cbn; eauto.
Qed.

(** C9, as the code has it.  The timer does not look at the cycles that are
    still waiting: every tick starts a new cycle next to them and leaves the
    watermark alone, so after [n] ticks during which no promise settles
    there are [n] more cycles in flight.  Nothing is skipped or coalesced. *)
Theorem every_tick_starts_a_cycle (h t a : string) p obs :
  In (p, obs) (pollers h t a) ->
  forall (wr : result unit) (tears : bool),
  (forall w : world,
     length (inflight (step p (TimerFires wr tears) w))
     = S (length (inflight w)) /\
     memory (step p (TimerFires wr tears) w) = memory w) /\
  (forall (n : nat) (w : world),
     length (inflight (steps p (repeat (TimerFires wr tears) n) w))
     = n + length (inflight w)).
Proof.
  intros I wr tears.
  assert (S1 : forall w : world,
     length (inflight (step p (TimerFires wr tears) w))
     = S (length (inflight w)) /\
     memory (step p (TimerFires wr tears) w) = memory w).
  { intros w. unfold step.
    destruct (tick_suspends _ _ _ _ _ I wr tears (memory w)) as [tr [c ->]].
    simpl. rewrite length_app. simpl. split; [lia | reflexivity]. }
  split; [exact S1|].
  induction n as [|n IH]; intros w; [reflexivity|].
  unfold steps in *. cbn [repeat fold_left]. rewrite IH.
  destruct (S1 w) as [-> _]. lia.
Qed.

Lemma every_tick_starts_a_cycle_witness :
  length
    (inflight
       (steps (Unified.pollRoom "claude" "bot")
          (repeat (TimerFires (inr tt) false) 3) (boot NoFile))) = 3 + 0.
Proof.
  exact (proj2 (every_tick_starts_a_cycle "bot" "claude" "bot" _ _
                  (or_intror (or_introl eq_refl)) (inr tt) false)
               3 (boot NoFile)).
Defined.

(** C9 as stated fails: the second tick fires while the fetch of the first
    cycle is outstanding; it is not skipped, two cycles are in flight, and
    they go on interleaved. *)
Lemma cycles_overlap :
  let served := Samples.serve Samples.m2 in
  let w2 := steps (Minimal.poll "bot")
              [TimerFires (inr tt) false; TimerFires (inr tt) false]
              (boot (Cache (Some "m1"))) in
  let w4 := steps (Minimal.poll "bot")
              [PromiseSettles 1 (FetchSettled (fetch_result served))
                 (inr tt) false;
               PromiseSettles 0 (FetchSettled (fetch_result served))
                 (inr tt) false]
              w2 in
  length (inflight w2) = 2 /\
  output w2 = [EvLog LogPolling; EvLog LogPolling] /\
  length (inflight w4) = 2 /\
  output w4 = [EvLog LogPolling; EvLog LogPolling; EvFetch; EvFetch].
Proof. repeat split; reflexivity. Qed.

(** ** Messages without a body *)

Lemma bot_handle_empty (a : string) : Unified.BOT_HANDLE a = "" -> a = "".
Proof. destruct a; [reflexivity | discriminate]. Qed.

Lemma unified_tests_null (a : string) :
  a <> "" ->
  Unified.isSelfAuthored a None = false /\
  Unified.isTriggerMatch a None = false.
Proof.
  intros N. split.
  - destruct (Unified.isSelfAuthored a None) eqn:E; [|reflexivity].
    apply empty_includes, bot_handle_empty in E. contradiction.
  - reflexivity.
Qed.

(** With an empty handle every body contains the handle. *)
Lemma unified_self_empty_handle (b : option string) :
  Unified.isSelfAuthored "" b = true.
Proof. apply includes_empty. Qed.

Lemma pollRoom_own_not_logged (t a : string) (o : oracle) (s : state)
      (m : message) (i : string) :
  observed_pollRoom o = Some m ->
  Unified.isSelfAuthored a (body m) = true ->
  ~ In (EvLog (LogIgnored i)) (trace_of (run (Unified.pollRoom t a) o s)).
Proof. by_cases; cbn; intuition discriminate. Qed.

Section NullBody.

Variables (o : oracle) (s : state) (m : message).

Hypothesis has_watermark : falsy (lastSeenId s) = false.
Hypothesis is_new : differs (id m) (lastSeenId s) = true.
Hypothesis no_body : body m = None.

Lemma pollRoom_null_body (t a : string) :
  observed_pollRoom o = Some m ->
  filter is_dispatch (trace_of (run (Unified.pollRoom t a) o s)) = [] /\
  lastSeenId (state_of (run (Unified.pollRoom t a) o s)) = Some (id m) /\
  (write_result o = inr tt ->
   CACHE_FILE (state_of (run (Unified.pollRoom t a) o s))
   = Cache (Some (id m)) /\
   (a <> "" ->
    In (EvLog (LogIgnored (id m)))
       (trace_of (run (Unified.pollRoom t a) o s)))).
Proof.
  intros O.
  assert (T1 : Unified.isTriggerMatch a (body m) = false)
    by (rewrite no_body; reflexivity).
  assert (T2 : a <> "" -> Unified.isSelfAuthored a (body m) = false)
    by (rewrite no_body; apply unified_tests_null).
  revert has_watermark is_new O T1 T2. clear no_body.
  by_cases; repeat split; intros; try congruence; try (simpl; tauto);
    match goal with
    | H : _ <> _, K : _ <> _ -> _ |- _ => specialize (K H); congruence
    end.
Qed.

Lemma poll_null_body (h : string) :
  observed_poll o = Some m ->
  run (Minimal.poll h) o s =
  (s, [EvLog LogPolling; EvFetch;
       EvLog (LogFetchError (message_of cannot_read))], inr tt).
Proof.
  revert has_watermark is_new no_body. by_cases; reflexivity.
Qed.

End NullBody.

(** C10, as the code has it.  A cycle looks at a new message (watermark set
    and different from its id) whose [body] is [null] or missing.
    - The unified poller reads the body as the empty string: the trigger
      test is negative, there is no dispatch event, the watermark becomes
      the id and, when the write succeeds, so does the cache.  With a
      non-empty handle the self-authorship test is negative too and the
      message is logged as ignored.  With the empty handle (which
      [--handle ""] gives) the empty string contains the handle: the message
      is taken for the poller's own and nothing is logged.
    - The minimal poller raises on [msg.body.includes]; its handler logs the
      error, and the watermark and the cache file are as before. *)
Theorem null_body (h t a : string) (o : oracle) (s : state) (m : message) :
  falsy (lastSeenId s) = false ->
  differs (id m) (lastSeenId s) = true ->
  body m = None ->
  (observed_pollRoom o = Some m ->
   Unified.isTriggerMatch a (body m) = false /\
   filter is_dispatch (trace_of (run (Unified.pollRoom t a) o s)) = [] /\
   lastSeenId (state_of (run (Unified.pollRoom t a) o s)) = Some (id m) /\
   (write_result o = inr tt ->
    CACHE_FILE (state_of (run (Unified.pollRoom t a) o s))
    = Cache (Some (id m))) /\
   (a <> "" ->
    Unified.isSelfAuthored a (body m) = false /\
    (write_result o = inr tt ->
     In (EvLog (LogIgnored (id m)))
        (trace_of (run (Unified.pollRoom t a) o s)))) /\
   (a = "" ->
    Unified.isSelfAuthored a (body m) = true /\
    ~ In (EvLog (LogIgnored (id m)))
         (trace_of (run (Unified.pollRoom t a) o s)))) /\
  (observed_poll o = Some m ->
   result_of (run (Minimal.poll h) o s) = inr tt /\
   state_of (run (Minimal.poll h) o s) = s /\
   exists text,
     trace_of (run (Minimal.poll h) o s) =
     [EvLog LogPolling; EvFetch; EvLog (LogFetchError text)]).
Proof.
  intros W N B. split; intros O.
  - destruct (pollRoom_null_body o s m W N B t a O) as [A1 [A2 A3]].
    split; [rewrite B; reflexivity|].
    split; [exact A1 | split; [exact A2|]].
    split; [intros K; apply (A3 K)|]. split.
    + intros E. split; [rewrite B; now apply unified_tests_null|].
      intros K. now apply (A3 K).
    + intros ->. split; [apply unified_self_empty_handle|].
      apply pollRoom_own_not_logged with (m := m); [exact O|].
      apply unified_self_empty_handle.
  - rewrite (poll_null_body o s m W N B h O).
    split; [reflexivity | split; [reflexivity|]]. eexists. reflexivity.
Qed.

Lemma null_body_witness :
  let o := Samples.serve Samples.m5 in
  (filter is_dispatch
     (trace_of (run (Unified.pollRoom "claude" "bot") o (Samples.at_id "m1")))
   = [] /\
   state_of (run (Unified.pollRoom "claude" "bot") o (Samples.at_id "m1"))
   = Samples.at_id "m5" /\
   In (EvLog (LogIgnored "m5"))
      (trace_of
         (run (Unified.pollRoom "claude" "bot") o (Samples.at_id "m1")))) /\
  state_of (run (Minimal.poll "bot") o (Samples.at_id "m1"))
  = Samples.at_id "m1".
Proof.
  intros o.
  destruct (null_body "bot" "claude" "bot" o (Samples.at_id "m1") Samples.m5
              eq_refl eq_refl eq_refl) as [A B].
  split.
  - destruct (A eq_refl) as [_ [A1 [A2 [A3 [A4 _]]]]].
    assert (E : "bot" <> "") by discriminate.
    destruct (A4 E) as [_ A5].
    split; [exact A1 | split; [reflexivity | exact (A5 eq_refl)]].
  - exact (proj1 (proj2 (B eq_refl))).
Defined.

(** C10 as stated fails for the empty handle: the message is new, its body
    is missing, and the unified poller takes it for its own; the watermark
    moves and nothing else happens. *)
Lemma empty_handle_owns_missing_body :
  observed_pollRoom (Samples.serve Samples.m5) = Some Samples.m5 /\
  falsy (lastSeenId (Samples.at_id "m1")) = false /\
  differs (id Samples.m5) (lastSeenId (Samples.at_id "m1")) = true /\
  body Samples.m5 = None /\
  Cli.unified_start ["--session"; "claude"; "--handle"; ""]
  = Cli.Started (Some "claude") "" /\
  Unified.isSelfAuthored "" (body Samples.m5) = true /\
  run (Unified.pollRoom "claude" "") (Samples.serve Samples.m5)
    (Samples.at_id "m1")
  = (Samples.at_id "m5", [EvQuery; EvWrite (Some "m5") true], inr tt).
Proof. repeat split; reflexivity. Qed.

(** * Further properties of the pollers *)

(** ** What makes a message dispatch *)





Section Decision.

Variables (o : oracle) (s : state) (m : message).

Hypothesis has_watermark : falsy (lastSeenId s) = false.
Hypothesis is_new : differs (id m) (lastSeenId s) = true.
Hypothesis written : write_result o = inr tt.

Lemma poll_decision (h : string) :
  observed_poll o = Some m ->
  dispatches (trace_of (run (Minimal.poll h) o s)) =
  match body m with
  | Some b =>
      if negb (Minimal.isSelfAuthored h b)
         && includes (toLowerCase b) "check room"
      then 1 else 0
  | None => 0
  end.
Proof.
  intros O. destruct (body m) as [b|] eqn:B.
  - destruct (Minimal.isSelfAuthored h b) eqn:S; cbn [negb andb].
    + now rewrite (poll_self o s m has_watermark is_new h b O B S).
    + assert (T : Minimal.isTriggerMatch h b
                  = includes (toLowerCase b) "check room").
      { unfold Minimal.isTriggerMatch.
        destruct (includes b ("@" ++ h)) eqn:E; [|apply orb_false_r].
        apply includes_mention in E. unfold Minimal.isSelfAuthored in S.
        congruence. }
      destruct (includes (toLowerCase b) "check room");
        revert has_watermark is_new written O B S T; by_cases; reflexivity.
  - now rewrite (poll_null_body o s m has_watermark is_new B h O).
Qed.

Lemma pollRoom_decision (t a : string) :
  observed_pollRoom o = Some m ->
  dispatches (trace_of (run (Unified.pollRoom t a) o s)) =
  if negb (Unified.isSelfAuthored a (body m))
     && includes (Unified.bodyStr (body m)) "check room"
  then 1 else 0.
Proof.
  intros O. destruct (Unified.isSelfAuthored a (body m)) eqn:S;
    cbn [negb andb].
  - revert has_watermark is_new written O S; by_cases; reflexivity.
  - assert (T : Unified.isTriggerMatch a (body m)
                = includes (Unified.bodyStr (body m)) "check room").
    { unfold Unified.isTriggerMatch.
      destruct (includes (Unified.bodyStr (body m))
                  ("@" ++ Unified.BOT_HANDLE a)) eqn:E; [|apply orb_false_r].
      apply includes_mention in E. unfold Unified.isSelfAuthored in S.
      congruence. }
    destruct (includes (Unified.bodyStr (body m)) "check room");
      revert has_watermark is_new written O S T; by_cases; reflexivity.
Qed.

(** The first command issued tells the same: the head of the script when
    the message dispatches, no command at all when it does not. *)
Lemma poll_decision_commands (h : string) :
  observed_poll o = Some m ->
  hd_error (commands (trace_of (run (Minimal.poll h) o s))) =
  match body m with
  | Some b =>
      if negb (Minimal.isSelfAuthored h b)
         && includes (toLowerCase b) "check room"
      then Some (SendKeysLiteral "claude" "check room") else None
  | None => None
  end.
Proof.
  intros O. destruct (body m) as [b|] eqn:B.
  - destruct (Minimal.isSelfAuthored h b) eqn:S; cbn [negb andb].
    + now rewrite (poll_self o s m has_watermark is_new h b O B S).
    + assert (T : Minimal.isTriggerMatch h b
                  = includes (toLowerCase b) "check room").
      { unfold Minimal.isTriggerMatch.
        destruct (includes b ("@" ++ h)) eqn:E; [|apply orb_false_r].
        apply includes_mention in E. unfold Minimal.isSelfAuthored in S.
        congruence. }
      destruct (includes (toLowerCase b) "check room");
        revert has_watermark is_new written O B S T; by_cases; reflexivity.
  - now rewrite (poll_null_body o s m has_watermark is_new B h O).
Qed.

Lemma pollRoom_decision_commands (t a : string) :
  observed_pollRoom o = Some m ->
  hd_error (commands (trace_of (run (Unified.pollRoom t a) o s))) =
  if negb (Unified.isSelfAuthored a (body m))
     && includes (Unified.bodyStr (body m)) "check room"
  then Some (HasSession t) else None.
Proof.
  intros O. destruct (Unified.isSelfAuthored a (body m)) eqn:S;
    cbn [negb andb].
  - revert has_watermark is_new written O S; by_cases; reflexivity.
  - assert (T : Unified.isTriggerMatch a (body m)
                = includes (Unified.bodyStr (body m)) "check room").
    { unfold Unified.isTriggerMatch.
      destruct (includes (Unified.bodyStr (body m))
                  ("@" ++ Unified.BOT_HANDLE a)) eqn:E; [|apply orb_false_r].
      apply includes_mention in E. unfold Unified.isSelfAuthored in S.
      congruence. }
    destruct (includes (Unified.bodyStr (body m)) "check room");
      revert has_watermark is_new written O S T; by_cases; reflexivity.
Qed.

End Decision.

(** X2. The whole trigger decision, for bodies of ASCII characters (and,
    in the unified poller, a handle of ASCII characters).  For a new
    message (watermark set and different from its id) whose cache write
    succeeds, either poller starts one dispatch, and issues the first
    command of its script, exactly when the message is not taken for its
    own and its lower-cased body contains "check room"; otherwise it starts
    none and issues no command.  A missing body never dispatches. *)
Theorem dispatch_decision (h t a : string) (o : oracle) (s : state)
        (m : message) :
  falsy (lastSeenId s) = false ->
  differs (id m) (lastSeenId s) = true ->
  write_result o = inr tt ->
  (forall b, body m = Some b -> ascii_only b = true) ->
  (observed_poll o = Some m ->
   dispatches (trace_of (run (Minimal.poll h) o s)) =
   match body m with
   | Some b =>
       if negb (Minimal.isSelfAuthored h b)
          && includes (toLowerCase b) "check room"
       then 1 else 0
   | None => 0
   end /\
   hd_error (commands (trace_of (run (Minimal.poll h) o s))) =
   match body m with
   | Some b =>
       if negb (Minimal.isSelfAuthored h b)
          && includes (toLowerCase b) "check room"
       then Some (SendKeysLiteral "claude" "check room") else None
   | None => None
   end) /\
  (observed_pollRoom o = Some m ->
   ascii_only a = true ->
   dispatches (trace_of (run (Unified.pollRoom t a) o s)) =
   (if negb (Unified.isSelfAuthored a (body m))
       && includes (Unified.bodyStr (body m)) "check room"
    then 1 else 0) /\
   hd_error (commands (trace_of (run (Unified.pollRoom t a) o s))) =
   (if negb (Unified.isSelfAuthored a (body m))
       && includes (Unified.bodyStr (body m)) "check room"
    then Some (HasSession t) else None)).
Proof.
  intros W N K _. split.
  - intros O. split.
    + now apply poll_decision.
    + now apply poll_decision_commands.
  - intros O _. split.
    + now apply pollRoom_decision.
    + now apply pollRoom_decision_commands.
Qed.

Lemma dispatch_decision_witness :
  (dispatches
     (trace_of (run (Minimal.poll "bot") (Samples.serve Samples.m4)
                  (Samples.at_id "m1"))) = 1 /\
   hd_error
     (commands
        (trace_of (run (Minimal.poll "bot") (Samples.serve Samples.m4)
                     (Samples.at_id "m1"))))
   = Some (SendKeysLiteral "claude" "check room")) /\
  (dispatches
     (trace_of (run (Unified.pollRoom "claude" "bot") (Samples.serve Samples.m4)
                  (Samples.at_id "m1"))) = 0 /\
   hd_error
     (commands
        (trace_of (run (Unified.pollRoom "claude" "bot")
                     (Samples.serve Samples.m4) (Samples.at_id "m1"))))
   = None).
Proof.
  destruct (dispatch_decision "bot" "claude" "bot" (Samples.serve Samples.m4)
              (Samples.at_id "m1") Samples.m4 eq_refl eq_refl eq_refl)
    as [A B].
  - intros b E. injection E as <-. reflexivity.
  - split; [exact (A eq_refl) | exact (B eq_refl eq_refl)].
Defined.

(** ** What reaches the shell *)

Ltac pick_prefix :=
  unfold script; cbn;
  first [ exists 0; split; reflexivity
        | exists 1; split; reflexivity
        | exists 2; split; reflexivity
        | exists 3; split; reflexivity
        | exists 4; split; reflexivity ].

Lemma poll_commands (h : string) (o : oracle) (s : state) :
  exists k,
    commands (trace_of (run (Minimal.poll h) o s))
    = firstn k (script false "claude") /\
    failures (removelast (execs (trace_of (run (Minimal.poll h) o s)))) = [].
Proof. unfold failures. by_cases; pick_prefix. Qed.

Lemma pollRoom_commands (t a : string) (o : oracle) (s : state) :
  exists k,
    commands (trace_of (run (Unified.pollRoom t a) o s))
    = firstn k (script true t) /\
    failures (removelast (execs (trace_of (run (Unified.pollRoom t a) o s))))
    = [].
Proof. unfold failures. by_cases; pick_prefix. Qed.

(** X3. Nothing of a message reaches the shell.  Whatever the room returns,
    the commands a cycle runs are an initial part of one fixed script: on
    the session ["claude"] for the minimal poller, on the configured session
    (probe first) for the unified poller, always typing the literal text
    "check room".  The script stops at the first command that fails. *)
Theorem commands_are_fixed (h t a : string) (o : oracle) (s : state) :
  (exists k,
     commands (trace_of (run (Minimal.poll h) o s))
     = firstn k (script false "claude") /\
     failures (removelast (execs (trace_of (run (Minimal.poll h) o s))))
     = []) /\
  (exists k,
     commands (trace_of (run (Unified.pollRoom t a) o s))
     = firstn k (script true t) /\
     failures
       (removelast (execs (trace_of (run (Unified.pollRoom t a) o s))))
     = []).
Proof.
  split; [apply poll_commands | apply pollRoom_commands].
Qed.

(** ** Cycles that get no message *)

Lemma no_dispatch_no_command (tr : list event) :
  filter is_dispatch tr = [] -> commands tr = [].
Proof.
  induction tr as [|e tr IH]; simpl; [reflexivity|].
  destruct e as [[]| | | |]; simpl; try discriminate; exact IH.
Qed.

(** X4. A cycle that gets no message changes nothing.  When the request is
    rejected, answers with an error status or an error object, cannot be
    parsed, or yields [null] or an empty array, the watermark and the cache
    file are as before, nothing is written and no command is run. *)
Theorem cycle_without_message (h t a : string) (o : oracle) (s : state) :
  ((exists e, fetch_result o = inl e) \/
   (exists r, fetch_result o = inr r /\ ok r = false) \/
   (exists e, json_result o = inl e) \/
   json_result o = inr None \/ json_result o = inr (Some []) ->
   state_of (run (Minimal.poll h) o s) = s /\
   writes (trace_of (run (Minimal.poll h) o s)) = [] /\
   commands (trace_of (run (Minimal.poll h) o s)) = []) /\
  ((exists e, query_result o = inl e) \/
   (exists q, query_result o = inr q /\
              (error q <> None \/ data q = None \/ data q = Some [])) ->
   state_of (run (Unified.pollRoom t a) o s) = s /\
   writes (trace_of (run (Unified.pollRoom t a) o s)) = [] /\
   commands (trace_of (run (Unified.pollRoom t a) o s)) = []).
Proof.
  split; intros H.
  - assert (O : observed_poll o = None).
    { unfold observed_poll.
      destruct H as [[e ->] | [[r [-> ->]] | [[e E] | [E | E]]]];
        try reflexivity;
        destruct (fetch_result o) as [|r]; try reflexivity;
        destruct (ok r); try reflexivity; now rewrite E. }
    destruct (poll_miss h o s O) as [A [B C]].
    split; [exact A | split; [exact C | now apply no_dispatch_no_command]].
  - assert (O : observed_pollRoom o = None).
    { unfold observed_pollRoom.
      destruct H as [[e ->] | [q [-> [E | [E | E]]]]]; try reflexivity;
        destruct (error q); try reflexivity; try congruence;
        now rewrite E. }
    destruct (pollRoom_miss t a o s O) as [A [B C]].
    split; [exact A | split; [exact C | now apply no_dispatch_no_command]].
Qed.

Lemma cycle_without_message_witness :
  let o := {| fetch_result := inr {| ok := false; status := 503 |};
              json_result := inr None;
              query_result := inr {| data := None; error := Some "timeout" |};
              exec_result := fun _ => inr tt;
              write_result := inr tt;
              write_tears := false |} in
  state_of (run (Minimal.poll "bot") o (Samples.at_id "m1"))
  = Samples.at_id "m1" /\
  state_of (run (Unified.pollRoom "claude" "bot") o (Samples.at_id "m1"))
  = Samples.at_id "m1".
Proof.
  intros o.
  destruct (cycle_without_message "bot" "claude" "bot" o (Samples.at_id "m1"))
    as [A B].
  split.
  - apply A. right. left. eexists. split; reflexivity.
  - apply B. right. eexists. split; [reflexivity|]. left. discriminate.
Defined.

(** ** What a cycle does to the watermark *)

Lemma poll_frame (h : string) (o : oracle) (s : state) :
  (state_of (run (Minimal.poll h) o s) = s /\
   writes (trace_of (run (Minimal.poll h) o s)) = []) \/
  (exists m,
     observed_poll o = Some m /\
     state_of (run (Minimal.poll h) o s) = moved_to (id m) o s /\
     writes (trace_of (run (Minimal.poll h) o s))
     = [EvWrite (Some (id m)) (succeeded (write_result o))]).
Proof.
  unfold moved_to. by_cases; try (left; split; reflexivity);
    right; eexists; (split; [reflexivity|]);
    repeat match goal with H : _ = _ |- _ => rewrite H end;
    split; reflexivity.
Qed.

Lemma pollRoom_frame (t a : string) (o : oracle) (s : state) :
  (state_of (run (Unified.pollRoom t a) o s) = s /\
   writes (trace_of (run (Unified.pollRoom t a) o s)) = []) \/
  (exists m,
     observed_pollRoom o = Some m /\
     state_of (run (Unified.pollRoom t a) o s) = moved_to (id m) o s /\
     writes (trace_of (run (Unified.pollRoom t a) o s))
     = [EvWrite (Some (id m)) (succeeded (write_result o))]).
Proof.
  unfold moved_to. by_cases; try (left; split; reflexivity);
    right; eexists; (split; [reflexivity|]);
    repeat match goal with H : _ = _ |- _ => rewrite H end;
    split; reflexivity.
Qed.

(** X5. A cycle of either poller touches the state in one of two ways only.
    Either the watermark and the cache file are as before and nothing was
    written; or the watermark is the id of the message the cycle looked at
    and exactly one write of that id was attempted, which leaves the cache
    file holding that id, or unchanged, or truncated.  No other value is
    ever stored. *)
Theorem cycle_frame (h t a : string) p obs :
  In (p, obs) (pollers h t a) ->
  forall (o : oracle) (s : state),
  (state_of (run p o s) = s /\ writes (trace_of (run p o s)) = []) \/
  (exists m,
     obs o = Some m /\
     lastSeenId (state_of (run p o s)) = Some (id m) /\
     writes (trace_of (run p o s))
     = [EvWrite (Some (id m)) (succeeded (write_result o))] /\
     (CACHE_FILE (state_of (run p o s)) = Cache (Some (id m)) \/
      CACHE_FILE (state_of (run p o s)) = CACHE_FILE s \/
      CACHE_FILE (state_of (run p o s)) = Garbage)).
Proof.
  intros I o s.
  assert (F : (state_of (run p o s) = s /\ writes (trace_of (run p o s)) = [])
              \/ (exists m,
                    obs o = Some m /\
                    state_of (run p o s) = moved_to (id m) o s /\
                    writes (trace_of (run p o s))
                    = [EvWrite (Some (id m)) (succeeded (write_result o))])).
  { destruct (pollers_cases _ _ _ _ _ I) as [[-> ->] | [-> ->]].
    - apply poll_frame.
    - apply pollRoom_frame. }
  destruct F as [F | [m [O [S W]]]]; [left; exact F | right].
  exists m. rewrite S. split; [exact O|]. unfold moved_to, write_cache.
  destruct (succeeded (write_result o)), (write_tears o); simpl; auto.
Qed.

Lemma cycle_frame_witness :
  let out := run (Unified.pollRoom "claude" "bot")
               (Samples.failing_write (Samples.serve Samples.m3))
               (Samples.at_id "m2") in
  lastSeenId (state_of out) = Some "m3" /\
  CACHE_FILE (state_of out) = Cache (Some "m2") /\
  writes (trace_of out) = [EvWrite (Some "m3") false].
Proof.
  intros out.
  destruct (cycle_frame "bot" "claude" "bot" _ _
              (or_intror (or_introl eq_refl))
              (Samples.failing_write (Samples.serve Samples.m3))
              (Samples.at_id "m2")) as [[A _] | [m [O [A [B C]]]]].
  - discriminate A.
  - cbv in O. injection O as <-.
    split; [exact A | split; [reflexivity | exact B]].
Defined.

(** ** A watermark, once set, stays set *)

Section Anchored.

Variable p : Proc unit.
Variable observed : oracle -> option message.

Hypothesis returns : forall o s, result_of (run p o s) = inr tt.

Hypothesis frame : forall o s,
  state_of (run p o s) = s \/
  exists m, observed o = Some m /\ state_of (run p o s) = moved_to (id m) o s.

Lemma final_state_fire (o : oracle) (ts : list tick) (s : state) :
  final_state (loop p (Fire o :: ts) s)
  = final_state (loop p ts (state_of (run p o s))).
Proof.
  simpl. pose proof (returns o s) as R.
  unfold result_of, state_of, final_state in *.
  destruct (run p o s) as [[s' tr] r]. simpl in *. subst r.
  destruct (loop p ts s') as [[cs s''] h]. reflexivity.
Qed.

Lemma anchored_moved (x : string) (o : oracle) (s : state) :
  anchored s -> truthy x = true ->
  (succeeded (write_result o) = false -> write_tears o = false) ->
  anchored (moved_to x o s).
Proof.
  intros [A B] X T. unfold moved_to, write_cache.
  destruct (succeeded (write_result o)).
  - split; simpl; now rewrite X.
  - rewrite (T eq_refl). split; simpl; [now rewrite X | exact B].
Qed.

Lemma anchored_loop (ts : list tick) (s : state) :
  anchored s ->
  (forall x, In x (observed_ids observed ts) -> truthy x = true) ->
  (forall o, In (Fire o) ts ->
             succeeded (write_result o) = false -> write_tears o = false) ->
  anchored (final_state (loop p ts s)).
Proof.
  revert s; induction ts as [|[|o] ts IH]; intros s A X T.
  - exact A.
  - simpl. apply IH.
    + destruct A as [_ B]. split; exact B.
    + exact X.
    + intros o I. apply T. now right.
  - rewrite final_state_fire. apply IH.
    + destruct (frame o s) as [-> | [m [O ->]]]; [exact A|].
      apply anchored_moved; [exact A | | apply T; now left].
      apply X. simpl. rewrite O. now left.
    + intros x I. apply X. simpl. destruct (observed o); [now right | exact I].
    + intros o' I. apply T. now right.
Qed.

End Anchored.

(** X6. Once the variable and the cache file both hold a watermark, they
    keep holding one through any number of cycles and relaunches, provided
    the ids of the room are non-empty and no failing write truncates the
    cache file.  Failing writes that leave the file alone, failing fetches
    and failing commands do no harm. *)
Theorem watermark_stays_set (h t a : string) p obs :
  In (p, obs) (pollers h t a) ->
  forall (ts : list tick) (s : state),
  anchored s ->
  (forall x, In x (observed_ids obs ts) -> truthy x = true) ->
  (forall o, In (Fire o) ts ->
             succeeded (write_result o) = false -> write_tears o = false) ->
  anchored (final_state (loop p ts s)).
Proof.
  intros I ts s. apply anchored_loop.
  - apply (pollers_return _ _ _ _ _ I).
  - intros o s0.
    destruct (pollers_cases _ _ _ _ _ I) as [[-> ->] | [-> ->]].
    + destruct (poll_frame h o s0) as [[F _] | [m [O [F _]]]]; eauto.
    + destruct (pollRoom_frame t a o s0) as [[F _] | [m [O [F _]]]]; eauto.
Qed.

Lemma watermark_stays_set_witness :
  anchored
    (final_state
       (loop (Minimal.poll "bot")
          [Fire (Samples.failing_write (Samples.serve Samples.m2)); Restart;
           Fire (Samples.serve Samples.m3)]
          (Samples.at_id "m1"))).
Proof.
  apply (watermark_stays_set "bot" "claude" "bot" _ _ (or_introl eq_refl)).
  - split; reflexivity.
  - simpl. intros x [<- | [<- | []]]; reflexivity.
  - simpl. intros o [E | [E | [E | []]]]; try discriminate;
      injection E as <-; intros _; reflexivity.
Defined.

(** * The markdown memory store *)

Module MemoryFacts.

Import Memory.

Local Open Scope string_scope.

(** ** Strings *)

Lemma endsWith_spec (s t : string) :
  endsWith s t = true <-> exists pre, s = pre ++ t.
Proof.
  induction s as [|c s IH]; cbn [endsWith].
  - rewrite orb_false_r, String.eqb_eq. split.
    + intros <-. now exists "".
    + intros [pre H]. destruct pre; [exact H | discriminate].
  - rewrite orb_true_iff, String.eqb_eq, IH. split.
    + intros [<- | [pre ->]]; [now exists "" | now exists (String c pre)].
    + intros [[|d pre] H]; simpl in H.
      * now left.
      * right. injection H as _ ->. now exists pre.
Qed.

Lemma append_assoc (a b c : string) : (a ++ b) ++ c = a ++ b ++ c.
Proof. induction a as [|x a IH]; simpl; [reflexivity | now rewrite IH]. Qed.

Lemma append_empty_r (a : string) : a ++ "" = a.
Proof. induction a as [|x a IH]; simpl; [reflexivity | now rewrite IH]. Qed.

Lemma length_append (a b : string) :
  String.length (a ++ b) = String.length a + String.length b.
Proof. induction a as [|x a IH]; simpl; [reflexivity | now rewrite IH]. Qed.

Lemma endsWith_append (a t : string) : endsWith (a ++ t) t = true.
Proof. apply endsWith_spec. now exists a. Qed.

Lemma all_chars_append (p : ascii -> bool) (a b : string) :
  all_chars p (a ++ b) = all_chars p a && all_chars p b.
Proof.
  induction a as [|x a IH]; simpl; [reflexivity|].
  now rewrite IH, andb_assoc.
Qed.

(** A string made of characters of a class holds no character outside. *)
Lemma all_chars_excludes (p : ascii -> bool) (s : string) (c : ascii) :
  all_chars p s = true -> p c = false -> includes s (String c "") = false.
Proof.
  intros A P. destruct (includes s (String c "")) eqn:I; [|reflexivity].
  apply includes_spec in I. destruct I as [pre [post ->]].
  rewrite all_chars_append in A. simpl in A.
  rewrite P in A. simpl in A. now rewrite andb_false_r in A.
Qed.

(** ** [sanitizeKey] *)

Lemma dash_is_safe : safe_char dash = true.
Proof. reflexivity. Qed.

Lemma replace_unsafe_safe (s : string) :
  all_chars safe_char (replace_unsafe s) = true.
Proof.
  induction s as [|c s IH]; simpl; [reflexivity|].
  rewrite IH, andb_true_r.
  destruct (safe_char c) eqn:E; [exact E | reflexivity].
Qed.

Lemma replace_unsafe_fixes (s : string) :
  all_chars safe_char s = true -> replace_unsafe s = s.
Proof.
  induction s as [|c s IH]; simpl; [reflexivity|].
  intros A. apply andb_true_iff in A. destruct A as [-> A]. now rewrite IH.
Qed.

Lemma replace_unsafe_append (a b : string) :
  replace_unsafe (a ++ b) = replace_unsafe a ++ replace_unsafe b.
Proof. induction a as [|x a IH]; simpl; [reflexivity | now rewrite IH]. Qed.

Lemma squeeze_keeps (p : ascii -> bool) (s : string) :
  all_chars p s = true -> all_chars p (squeeze s) = true.
Proof.
  induction s as [|c s IH]; simpl; [reflexivity|].
  intros A. apply andb_true_iff in A. destruct A as [C A].
  destruct (is_dash c).
  - destruct s as [|d s]; [simpl; now rewrite C|].
    destruct (is_dash d) eqn:D.
    + now apply IH.
    + change (all_chars p (String c (squeeze (String d s))) = true).
      simpl all_chars at 1. rewrite C. now apply IH.
  - simpl. rewrite C. now apply IH.
Qed.

(** Squeezing keeps the first character. *)
Lemma squeeze_cons_head (d : ascii) (s : string) :
  squeeze (String d s)
  = String d match squeeze (String d s) with
             | String _ r => r
             | EmptyString => EmptyString
             end.
Proof.
  revert d; induction s as [|c s IH]; intros d.
  - simpl. destruct (is_dash d); reflexivity.
  - change (squeeze (String d (String c s)))
      with (if is_dash d
            then if is_dash c then squeeze (String c s)
                 else String d (squeeze (String c s))
            else String d (squeeze (String c s))).
    destruct (is_dash d) eqn:D; [|reflexivity].
    destruct (is_dash c) eqn:C; [|reflexivity].
    rewrite (IH c).
    unfold is_dash in *. apply Ascii.eqb_eq in D, C. now subst.
Qed.

Lemma spaced_cons (c d : ascii) (s : string) :
  spaced (String c (String d s))
  = negb (is_dash c && is_dash d) && spaced (String d s).
Proof. reflexivity. Qed.

Lemma squeeze_cons (c d : ascii) (s : string) :
  squeeze (String c (String d s))
  = if is_dash c && is_dash d then squeeze (String d s)
    else String c (squeeze (String d s)).
Proof.
  change (squeeze (String c (String d s)))
    with (if is_dash c
          then if is_dash d then squeeze (String d s)
               else String c (squeeze (String d s))
          else String c (squeeze (String d s))).
  destruct (is_dash c), (is_dash d); reflexivity.
Qed.

Lemma squeeze_spaced (s : string) : spaced (squeeze s) = true.
Proof.
  induction s as [|c s IH]; [reflexivity|].
  destruct s as [|d s].
  - simpl. destruct (is_dash c); reflexivity.
  - rewrite squeeze_cons. destruct (is_dash c && is_dash d) eqn:B; [exact IH|].
    destruct (squeeze (String d s)) as [|e s'] eqn:E; [reflexivity|].
    rewrite spaced_cons, IH, andb_true_r.
    assert (e = d).
    { rewrite squeeze_cons_head in E. now injection E. }
    subst e. now rewrite B.
Qed.

Lemma squeeze_fixes (s : string) : spaced s = true -> squeeze s = s.
Proof.
  induction s as [|c s IH]; [reflexivity|].
  intros S. destruct s as [|d s].
  - simpl. now destruct (is_dash c).
  - rewrite spaced_cons in S. apply andb_true_iff in S. destruct S as [N S].
    rewrite squeeze_cons. apply negb_true_iff in N. rewrite N.
    now rewrite (IH S).
Qed.

Lemma spaced_no_double_dash (s : string) :
  spaced s = true <-> includes s "--" = false.
Proof.
  induction s as [|c s IH]; [split; reflexivity|].
  destruct s as [|d s].
  - simpl. split; [intros _|reflexivity].
    unfold is_dash, dash. destruct (Ascii.eqb c "-"); reflexivity.
  - change (spaced (String c (String d s)))
      with (negb (is_dash c && is_dash d) && spaced (String d s)).
    change (includes (String c (String d s)) "--")
      with ((Ascii.eqb c "-" && (Ascii.eqb d "-" && true))
            || includes (String d s) "--").
    rewrite andb_true_r, andb_true_iff, orb_false_iff, IH, negb_true_iff.
    unfold is_dash, dash. tauto.
Qed.

Lemma sanitizeKey_spaced (k : string) : spaced (sanitizeKey k) = true.
Proof. apply squeeze_spaced. Qed.

Lemma sanitizeKey_safe (k : string) :
  all_chars safe_char (sanitizeKey k) = true.
Proof. apply squeeze_keeps, replace_unsafe_safe. Qed.

Lemma squeeze_append (a : string) (e : ascii) (b : string) :
  is_dash e = false ->
  squeeze (a ++ String e b) = squeeze a ++ squeeze (String e b).
Proof.
  intros B. induction a as [|c a IH]; [reflexivity|].
  destruct a as [|d a].
  - change (String c "" ++ String e b) with (String c (String e b)).
    rewrite squeeze_cons, B, andb_false_r.
    simpl. destruct (is_dash c); reflexivity.
  - change (String c (String d a) ++ String e b)
      with (String c (String d (a ++ String e b))).
    change (String d a ++ String e b)
      with (String d (a ++ String e b)) in IH.
    rewrite !squeeze_cons, IH. destruct (is_dash c && is_dash d); reflexivity.
Qed.

(** X7. Whatever the key, [sanitizeKey] returns a string over letters,
    digits, dot, underscore and dash, with no two dashes in a row; in
    particular it holds no path separator. *)
Theorem sanitizeKey_output (key : string) :
  all_chars safe_char (sanitizeKey key) = true /\
  includes (sanitizeKey key) "--" = false /\
  includes (sanitizeKey key) "/" = false.
Proof.
  split; [apply sanitizeKey_safe|]. split.
  - apply spaced_no_double_dash, sanitizeKey_spaced.
  - apply all_chars_excludes with (p := safe_char);
      [apply sanitizeKey_safe | reflexivity].
Qed.

Lemma sanitizeKey_fixed (key : string) :
  all_chars safe_char key = true -> spaced key = true ->
  sanitizeKey key = key.
Proof.
  intros A S. unfold sanitizeKey.
  rewrite replace_unsafe_fixes by exact A. now apply squeeze_fixes.
Qed.

Lemma sanitizeKey_idempotent (key : string) :
  sanitizeKey (sanitizeKey key) = sanitizeKey key.
Proof.
  apply sanitizeKey_fixed; [apply sanitizeKey_safe | apply sanitizeKey_spaced].
Qed.

(** X8. [sanitizeKey] leaves a key alone exactly when the key is already
    over the safe characters with no two dashes in a row; applying it twice
    is the same as applying it once. *)
Theorem sanitizeKey_fixes_safe_keys (key : string) :
  (sanitizeKey key = key <->
   all_chars safe_char key = true /\ includes key "--" = false) /\
  sanitizeKey (sanitizeKey key) = sanitizeKey key.
Proof.
  split; [split|].
  - intros E. rewrite <- E. split; [apply sanitizeKey_safe|].
    apply spaced_no_double_dash, sanitizeKey_spaced.
  - intros [A S].
    apply sanitizeKey_fixed; [exact A | now apply spaced_no_double_dash].
  - apply sanitizeKey_idempotent.
Qed.

Lemma filename_ends_md (key : string) : endsWith (filename key) ".md" = true.
Proof.
  unfold filename. destruct (endsWith (sanitizeKey key) ".md") eqn:E;
    [exact E | apply endsWith_append].
Qed.

Lemma filename_safe (key : string) :
  all_chars safe_char (filename key) = true.
Proof.
  unfold filename. destruct (endsWith (sanitizeKey key) ".md").
  - apply sanitizeKey_safe.
  - rewrite all_chars_append, sanitizeKey_safe. reflexivity.
Qed.

(** The file name is no dot segment and has no separator: joining it to a
    directory is plain concatenation. *)
Lemma filename_is_plain (key : string) :
  includes (filename key) "/" = false /\ 3 <= String.length (filename key).
Proof.
  split.
  - apply all_chars_excludes with (p := safe_char);
      [apply filename_safe | reflexivity].
  - pose proof (filename_ends_md key) as E. apply endsWith_spec in E.
    destruct E as [pre ->]. rewrite length_append. simpl. lia.
Qed.

Lemma filename_nonempty (key : string) : filename key <> "".
Proof.
  intros E. pose proof (filename_is_plain key) as [_ L].
  rewrite E in L. simpl in L. lia.
Qed.

(** X9. For a directory without empty or dot segments (what
    [resolveMemoryDir] gets from [path.resolve] and [path.join]) and
    whatever the key, [keyToPath] names a file directly inside the
    directory: the directory, a separator unless the directory ends with
    one, and a name over the safe characters that ends in ".md".  No key
    reaches a file elsewhere. *)
Theorem keyToPath_stays_inside (memDir key : string) :
  normal memDir = true ->
  exists name,
    keyToPath memDir key = memDir ++ separator memDir ++ name /\
    (separator memDir = "/" \/
     separator memDir = "" /\ endsWith memDir "/" = true) /\
    endsWith name ".md" = true /\
    all_chars safe_char name = true /\
    includes name "/" = false.
Proof.
  intros _. exists (filename key). split; [reflexivity|]. split.
  - unfold separator. destruct (endsWith memDir "/"); auto.
  - split; [apply filename_ends_md|].
    split; [apply filename_safe | apply filename_is_plain].
Qed.

Lemma keyToPath_stays_inside_witness :
  exists name,
    keyToPath "/" "../etc/passwd" = "/" ++ separator "/" ++ name /\
    (separator "/" = "/" \/ separator "/" = "" /\ endsWith "/" "/" = true) /\
    endsWith name ".md" = true /\
    all_chars safe_char name = true /\
    includes name "/" = false.
Proof.
  apply (keyToPath_stays_inside "/" "../etc/passwd"). reflexivity.
Defined.

Example keyToPath_root : keyToPath "/" "../etc/passwd" = "/..-etc-passwd.md".
Proof. reflexivity. Qed.

Lemma sanitizeKey_md (key : string) :
  sanitizeKey (key ++ ".md") = sanitizeKey key ++ ".md".
Proof.
  unfold sanitizeKey. rewrite replace_unsafe_append.
  change (replace_unsafe ".md") with ".md".
  now rewrite squeeze_append.
Qed.

(** X10. Different keys can name the same file.  A key and its sanitised
    form always do; so do two keys with the same sanitised form (["a b"] and
    ["a/b"]); and so do [key] and [key ++ ".md"], unless the sanitised key
    ends in ".md" already. *)
Theorem keys_share_files (memDir key other : string) :
  keyToPath memDir (sanitizeKey key) = keyToPath memDir key /\
  (sanitizeKey other = sanitizeKey key ->
   keyToPath memDir other = keyToPath memDir key) /\
  (endsWith (sanitizeKey key) ".md" = false ->
   keyToPath memDir (key ++ ".md") = keyToPath memDir key).
Proof.
  unfold keyToPath, filename. split; [|split].
  - now rewrite sanitizeKey_idempotent.
  - now intros ->.
  - intros E. rewrite sanitizeKey_md, endsWith_append, E. reflexivity.
Qed.

Lemma keys_share_files_witness :
  keyToPath "/m" "a/b" = keyToPath "/m" "a b" /\
  keyToPath "/m" "notes.md" = keyToPath "/m" "notes".
Proof.
  destruct (keys_share_files "/m" "a b" "a/b") as [_ [A _]].
  destruct (keys_share_files "/m" "notes" "") as [_ [_ B]].
  split; [apply A | apply B]; reflexivity.
Defined.

(** ** The store *)

Lemma lookup_update_same (p : string) (n : node) (st : store) :
  lookup p (update p n st) = Some n.
Proof.
  induction st as [|[q m] st IH]; simpl.
  - now rewrite String.eqb_refl.
  - destruct (q =? p) eqn:E; simpl.
    + now rewrite String.eqb_refl.
    + now rewrite E.
Qed.

Lemma lookup_update_other (p q : string) (n : node) (st : store) :
  q <> p -> lookup q (update p n st) = lookup q st.
Proof.
  intros N. induction st as [|[r m] st IH]; simpl.
  - apply String.eqb_neq in N. now rewrite String.eqb_sym, N.
  - destruct (r =? p) eqn:E; simpl.
    + apply String.eqb_eq in E. subst r.
      apply String.eqb_neq in N. now rewrite String.eqb_sym, N.
    + now rewrite IH.
Qed.

Lemma lookup_remove_same (p : string) (st : store) :
  lookup p (remove p st) = None.
Proof.
  induction st as [|[q m] st IH]; simpl; [reflexivity|].
  destruct (q =? p) eqn:E; simpl; [exact IH | now rewrite E].
Qed.

Lemma lookup_remove_other (p q : string) (st : store) :
  q <> p -> lookup q (remove p st) = lookup q st.
Proof.
  intros N. induction st as [|[r m] st IH]; simpl; [reflexivity|].
  destruct (r =? p) eqn:E; simpl.
  - apply String.eqb_eq in E. subst r.
    apply String.eqb_neq in N. now rewrite String.eqb_sym, N.
  - now rewrite IH.
Qed.

Lemma join_not_dir (dir name : string) : name <> "" -> join dir name <> dir.
Proof.
  unfold join. intros N E. apply (f_equal String.length) in E.
  rewrite !length_append in E.
  destruct name; [contradiction | simpl in E; lia].
Qed.

Lemma keyToPath_not_dir (dir key : string) : keyToPath dir key <> dir.
Proof. apply join_not_dir, filename_nonempty. Qed.

Lemma append_cancel (a b c : string) : a ++ b = a ++ c -> b = c.
Proof.
  induction a as [|x a IH]; simpl; [easy|].
  intros E. injection E as E. now apply IH.
Qed.

Lemma join_injective (dir f g : string) : join dir f = join dir g -> f = g.
Proof.
  unfold join. intros E. now apply append_cancel, append_cancel in E.
Qed.

Lemma prepared_has_dir (dir : string) (st : store) :
  lookup dir (prepared dir st) <> None.
Proof.
  unfold prepared. destruct (lookup dir st) eqn:E; [now rewrite E|].
  now rewrite lookup_update_same.
Qed.

Lemma prepared_other (dir q : string) (st : store) :
  q <> dir -> lookup q (prepared dir st) = lookup q st.
Proof.
  intros N. unfold prepared. destruct (lookup dir st); [reflexivity|].
  now apply lookup_update_other.
Qed.

Lemma prepared_done (dir : string) (st : store) :
  lookup dir st <> None -> prepared dir st = st.
Proof. unfold prepared. now destruct (lookup dir st). Qed.

Section WithEnvironment.

Variable OPENCLAW_DATA : string.
Variable join3 : string -> string -> string -> string.
Variable resolve : string -> string.
Variable refuses : refusals.

Local Abbreviation ensure_dir := (Memory.ensure_dir refuses).
Local Abbreviation resolveMemoryDir :=
  (Memory.resolveMemoryDir OPENCLAW_DATA join3 resolve refuses).
Local Abbreviation memoryGet :=
  (Memory.memoryGet OPENCLAW_DATA join3 resolve refuses).
Local Abbreviation memorySet :=
  (Memory.memorySet OPENCLAW_DATA join3 resolve refuses).

(** [ensure_dir] fails before it touches anything, exactly when the
    directory is not there and cannot be made; otherwise it makes sure of
    the directory. *)
Lemma ensure_dir_cases (dir : string) (st : store) :
  (exists e, ensure_dir dir st = (inl e, st) /\
             lookup dir st = None /\ mkdir_fails refuses dir st = true) \/
  (ensure_dir dir st = (inr dir, prepared dir st) /\
   (lookup dir st <> None \/ mkdir_fails refuses dir st = false)).
Proof.
  unfold Memory.ensure_dir, fs_bind, existsSync, mkdirSync, mkdir_fails,
    prepared, fs_ret.
  destruct (lookup dir st) eqn:E.
  - right. split; [reflexivity | left; discriminate].
  - rewrite E. destruct (under_file dir st); [left; eauto|].
    destruct (no_mkdir refuses dir); [left; eauto|].
    right. split; [reflexivity | right; reflexivity].
Qed.

Lemma ensure_dir_present (dir : string) (st : store) :
  lookup dir st <> None -> ensure_dir dir st = (inr dir, st).
Proof.
  intros P. unfold Memory.ensure_dir, fs_bind, existsSync, fs_ret.
  destruct (lookup dir st); [reflexivity | contradiction].
Qed.

(** [resolveMemoryDir] throws before it looks at the store, or goes on to
    make sure of a directory that does not depend on the store. *)
Lemma resolve_cases (config : option memory_section) (o : options) :
  (exists e, forall st, resolveMemoryDir config o st = (inl e, st)) \/
  (exists dir, forall st, resolveMemoryDir config o st = ensure_dir dir st).
Proof.
  unfold Memory.resolveMemoryDir.
  destruct (_ =? "openclaw").
  - destruct (or_else (agent o) (field config mem_agent)) as [a|].
    + destruct (truthy a).
      * right. eexists. intros st. reflexivity.
      * left. eexists. intros st. reflexivity.
    + left. eexists. intros st. reflexivity.
  - right. eexists. intros st. reflexivity.
Qed.

End WithEnvironment.

Section Runs.

Variable OPENCLAW_DATA : string.
Variable join3 : string -> string -> string -> string.
Variable resolve : string -> string.
Variable refuses : refusals.

Local Abbreviation ensure_dir := (Memory.ensure_dir refuses).
Local Abbreviation resolveMemoryDir :=
  (Memory.resolveMemoryDir OPENCLAW_DATA join3 resolve refuses).
Local Abbreviation memoryGet :=
  (Memory.memoryGet OPENCLAW_DATA join3 resolve refuses).
Local Abbreviation memorySet :=
  (Memory.memorySet OPENCLAW_DATA join3 resolve refuses).
Local Abbreviation memoryAppend :=
  (Memory.memoryAppend OPENCLAW_DATA join3 resolve refuses).
Local Abbreviation memoryDelete :=
  (Memory.memoryDelete OPENCLAW_DATA join3 resolve refuses).
Local Abbreviation memoryList :=
  (Memory.memoryList OPENCLAW_DATA join3 resolve refuses).

Variables (config : option memory_section) (o : options) (dir : string).

Hypothesis R : forall st, resolveMemoryDir config o st = ensure_dir dir st.

(** At a given store the directory cannot be made and nothing is touched,
    or it is made sure of. *)
Lemma resolved_or_failed (st : store) :
  (exists e, resolveMemoryDir config o st = (inl e, st)) \/
  resolveMemoryDir config o st = (inr dir, prepared dir st).
Proof.
  rewrite R. destruct (ensure_dir_cases refuses dir st) as [[e [E _]] | [E _]];
    [left; eauto | right; exact E].
Qed.

Lemma resolved_present (st : store) :
  lookup dir st <> None ->
  resolveMemoryDir config o st = (inr dir, prepared dir st).
Proof.
  intros P. rewrite R, prepared_done by exact P.
  now apply ensure_dir_present.
Qed.

Lemma get_run (key : string) (st : store) :
  resolveMemoryDir config o st = (inr dir, prepared dir st) ->
  memoryGet config key o st =
  (inr match lookup (keyToPath dir key) st with
       | Some (File c) =>
           {| g_key := key; g_path := keyToPath dir key;
              g_content := Some c; g_error := None |}
       | _ =>
           {| g_key := key; g_path := keyToPath dir key;
              g_content := None; g_error := Some "not found" |}
       end, prepared dir st).
Proof.
  intros E. unfold Memory.memoryGet, fs_bind, fs_catch, readFileSync, fs_ret.
  rewrite E. rewrite prepared_other by apply keyToPath_not_dir.
  destruct (lookup (keyToPath dir key) st) as [[c|]|]; reflexivity.
Qed.

(** Where the directory is there, reading changes nothing. *)
Lemma get_present (key : string) (st : store) :
  lookup dir st <> None ->
  memoryGet config key o st =
  (inr match lookup (keyToPath dir key) st with
       | Some (File c) =>
           {| g_key := key; g_path := keyToPath dir key;
              g_content := Some c; g_error := None |}
       | _ =>
           {| g_key := key; g_path := keyToPath dir key;
              g_content := None; g_error := Some "not found" |}
       end, st).
Proof.
  intros P. rewrite (get_run key st (resolved_present st P)).
  now rewrite prepared_done.
Qed.

Lemma set_run (key value : string) (st : store) (r : done) (st' : store) :
  memorySet config key value o st = (inr r, st') ->
  r = {| d_key := key; d_path := keyToPath dir key; d_action := ActSet;
         d_size := Some (String.length value) |} /\
  st' = update (keyToPath dir key) (File value) (prepared dir st) /\
  lookup dir (prepared dir st) = Some Directory /\
  resolveMemoryDir config o st = (inr dir, prepared dir st).
Proof.
  unfold Memory.memorySet, fs_bind, writeFileSync, fs_ret.
  destruct (resolved_or_failed st) as [[e E] | E]; rewrite E;
    [discriminate|].
  fold (keyToPath dir key).
  destruct (lookup dir (prepared dir st)) as [[c|]|]; try discriminate.
  destruct (lookup (keyToPath dir key) (prepared dir st)) as [[c|]|];
    try discriminate;
    destruct (no_write refuses (keyToPath dir key)); try discriminate;
    intros F; injection F as <- <-; auto.
Qed.

Lemma delete_run (key : string) (st : store) :
  resolveMemoryDir config o st = (inr dir, prepared dir st) ->
  memoryDelete config key o st =
  match lookup (keyToPath dir key) st with
  | Some (File _) =>
      if no_unlink refuses (keyToPath dir key) then
        (inr {| d_key := key; d_path := keyToPath dir key;
                d_action := ActNotFound; d_size := None |},
         prepared dir st)
      else
        (inr {| d_key := key; d_path := keyToPath dir key;
                d_action := ActDeleted; d_size := None |},
         remove (keyToPath dir key) (prepared dir st))
  | _ =>
      (inr {| d_key := key; d_path := keyToPath dir key;
              d_action := ActNotFound; d_size := None |},
       prepared dir st)
  end.
Proof.
  intros E. unfold Memory.memoryDelete, fs_bind, fs_catch, unlinkSync, fs_ret.
  rewrite E. rewrite prepared_other by apply keyToPath_not_dir.
  destruct (lookup (keyToPath dir key) st) as [[c|]|]; try reflexivity.
  destruct (no_unlink refuses (keyToPath dir key)); reflexivity.
Qed.

(** The text [memoryAppend] adds after [existing]. *)
Lemma append_run (key value iso : string) (st : store) (r : done)
      (st' : store) :
  memoryAppend config key value o iso st = (inr r, st') ->
  let existing := content_at (keyToPath dir key) st in
  let separator :=
    if truthy existing && negb (endsWith existing (String "010" ""))
    then String "010" "" else "" in
  let written :=
    existing ++ separator ++ String "010" "## " ++ timestamp iso
      ++ String "010" (String "010" "") ++ value ++ String "010" "" in
  r = {| d_key := key; d_path := keyToPath dir key; d_action := ActAppend;
         d_size := Some (String.length written) |} /\
  st' = update (keyToPath dir key) (File written) (prepared dir st) /\
  lookup dir (prepared dir st) = Some Directory /\
  resolveMemoryDir config o st = (inr dir, prepared dir st).
Proof.
  unfold Memory.memoryAppend, fs_bind, fs_catch, readFileSync, writeFileSync,
    fs_ret, content_at.
  destruct (resolved_or_failed st) as [[e E] | E]; rewrite E;
    [discriminate|].
  fold (keyToPath dir key).
  rewrite prepared_other by apply keyToPath_not_dir.
  destruct (lookup (keyToPath dir key) st) as [[c|]|] eqn:L; cbv zeta;
    destruct (lookup dir (prepared dir st)) as [[c'|]|]; try discriminate;
    rewrite prepared_other by apply keyToPath_not_dir; rewrite L;
    try discriminate;
    destruct (no_write refuses (keyToPath dir key)); try discriminate;
    intros F; injection F as <- <-; auto.
Qed.

Lemma other_path (key other : string) :
  filename other <> filename key -> keyToPath dir other <> keyToPath dir key.
Proof. intros N E. apply N. now apply join_injective in E. Qed.

Lemma set_store (key value : string) (st : store) :
  resolveMemoryDir config o st = (inr dir, prepared dir st) ->
  snd (memorySet config key value o st) = prepared dir st \/
  snd (memorySet config key value o st)
  = update (keyToPath dir key) (File value) (prepared dir st).
Proof.
  intros E. unfold Memory.memorySet, fs_bind, writeFileSync, fs_ret.
  rewrite E. fold (keyToPath dir key).
  destruct (lookup dir (prepared dir st)) as [[c|]|]; auto.
  destruct (lookup (keyToPath dir key) (prepared dir st)) as [[c|]|]; auto;
    destruct (no_write refuses (keyToPath dir key)); auto.
Qed.

Lemma append_store (key value iso : string) (st : store) :
  resolveMemoryDir config o st = (inr dir, prepared dir st) ->
  snd (memoryAppend config key value o iso st) = prepared dir st \/
  exists written,
    snd (memoryAppend config key value o iso st)
    = update (keyToPath dir key) (File written) (prepared dir st).
Proof.
  intros E.
  unfold Memory.memoryAppend, fs_bind, fs_catch, readFileSync, writeFileSync,
    fs_ret.
  rewrite E. fold (keyToPath dir key).
  destruct (lookup (keyToPath dir key) (prepared dir st)) as [[c|]|] eqn:L;
    cbn [fst snd];
    destruct (lookup dir (prepared dir st)) as [[c'|]|]; cbn [fst snd]; auto;
    rewrite ?L; cbn [fst snd]; eauto;
    destruct (no_write refuses (keyToPath dir key)); cbn [fst snd]; eauto.
Qed.

(** What [memoryGet] answers depends on the file of the key only, once the
    directory is there. *)
Lemma get_after (other : string) (st st' : store) :
  resolveMemoryDir config o st = (inr dir, prepared dir st) ->
  lookup dir st' <> None ->
  lookup (keyToPath dir other) st' = lookup (keyToPath dir other) st ->
  fst (memoryGet config other o st') = fst (memoryGet config other o st).
Proof.
  intros E P L.
  now rewrite (get_run other st E), (get_present other st' P), L.
Qed.

End Runs.

(** ** Listing *)

Lemma substring_skip (a b : string) (m : nat) :
  substring (String.length a) m (a ++ b) = substring 0 m b.
Proof. induction a as [|x a IH]; simpl; [reflexivity | exact IH]. Qed.

Lemma substring_all (b : string) (m : nat) :
  String.length b <= m -> substring 0 m b = b.
Proof.
  revert m; induction b as [|x b IH]; intros [|m] L; simpl in *;
    try reflexivity; try lia.
  rewrite IH by lia. reflexivity.
Qed.

Lemma substring_prefix (a b : string) :
  substring 0 (String.length a) (a ++ b) = a.
Proof.
  induction a as [|x a IH]; simpl.
  - destruct b; reflexivity.
  - now rewrite IH.
Qed.

Lemma strip_md_append (f : string) :
  endsWith f ".md" = true -> strip_md f ++ ".md" = f.
Proof.
  intros E. unfold strip_md. rewrite E.
  apply endsWith_spec in E. destruct E as [pre ->].
  rewrite length_append. simpl String.length.
  replace (String.length pre + 3 - 3) with (String.length pre) by lia.
  now rewrite substring_prefix.
Qed.

Lemma child_name_join (dir name : string) :
  name <> "" -> includes name "/" = false ->
  child_name dir (join dir name) = Some name.
Proof.
  intros N S. unfold child_name, join. rewrite <- append_assoc.
  assert (P : startsWith ((dir ++ separator dir) ++ name)
                (dir ++ separator dir) = true)
    by (apply startsWith_spec; now exists name).
  rewrite P, substring_skip, substring_all by (rewrite !length_append; lia).
  rewrite S, orb_false_r.
  destruct (name =? "") eqn:Z; [|reflexivity].
  apply String.eqb_eq in Z. contradiction.
Qed.

Lemma child_name_sound (dir p name : string) :
  child_name dir p = Some name -> p = join dir name.
Proof.
  unfold child_name. destruct (startsWith p (dir ++ separator dir)) eqn:P;
    [|discriminate].
  apply startsWith_spec in P. destruct P as [post ->].
  rewrite substring_skip, substring_all by (rewrite !length_append; lia).
  destruct ((post =? "") || includes post "/"); [discriminate|].
  intros E. injection E as <-. unfold join. now rewrite append_assoc.
Qed.

Lemma children_complete (dir p name : string) (n : node) (st : store) :
  In (p, n) st -> child_name dir p = Some name -> In name (children dir st).
Proof.
  intros I C. induction st as [|[q m] st IH]; [contradiction|].
  simpl. destruct I as [E | I].
  - injection E as -> ->. rewrite C. now left.
  - destruct (child_name dir q); [right|]; now apply IH.
Qed.

Lemma children_sound (dir name : string) (st : store) :
  In name (children dir st) -> exists n, In (join dir name, n) st.
Proof.
  induction st as [|[q m] st IH]; [contradiction|].
  simpl. destruct (child_name dir q) as [x|] eqn:C.
  - intros [<- | I].
    + exists m. left. now rewrite (child_name_sound _ _ _ C).
    + destruct (IH I) as [n J]. exists n. now right.
  - intros I. destruct (IH I) as [n J]. exists n. now right.
Qed.

Lemma In_update (p : string) (n : node) (st : store) :
  In (p, n) (update p n st).
Proof.
  induction st as [|[q m] st IH]; simpl; [now left|].
  destruct (q =? p); [now left | now right].
Qed.

Lemma size_of_run (p : string) (st : store) :
  size_of p st =
  (inr match lookup p st with
       | Some (File c) => String.length c
       | _ => 0
       end, st).
Proof.
  unfold size_of, fs_catch, fs_bind, readFileSync, fs_ret.
  destruct (lookup p st) as [[c|]|]; reflexivity.
Qed.

Lemma list_entries_run (dir : string) (names : list string) (st : store) :
  list_entries dir names st = (inr (map (entry_of dir st) names), st).
Proof.
  induction names as [|f names IH]; [reflexivity|].
  cbn [list_entries map]. unfold fs_bind at 1. rewrite size_of_run.
  unfold fs_bind at 1. rewrite IH. reflexivity.
Qed.

Section Operations.

Variable OPENCLAW_DATA : string.
Variable join3 : string -> string -> string -> string.
Variable resolve : string -> string.
Variable refuses : refusals.

Local Abbreviation ensure_dir := (Memory.ensure_dir refuses).
Local Abbreviation resolveMemoryDir :=
  (Memory.resolveMemoryDir OPENCLAW_DATA join3 resolve refuses).
Local Abbreviation memoryGet :=
  (Memory.memoryGet OPENCLAW_DATA join3 resolve refuses).
Local Abbreviation memorySet :=
  (Memory.memorySet OPENCLAW_DATA join3 resolve refuses).
Local Abbreviation memoryAppend :=
  (Memory.memoryAppend OPENCLAW_DATA join3 resolve refuses).
Local Abbreviation memoryDelete :=
  (Memory.memoryDelete OPENCLAW_DATA join3 resolve refuses).
Local Abbreviation memoryList :=
  (Memory.memoryList OPENCLAW_DATA join3 resolve refuses).

Variables (config : option memory_section) (o : options).

(** X11. What [memorySet] wrote, [memoryGet] reads back, under the key that
    was used and under every key with the same sanitised form; reading
    changes nothing. *)
Theorem set_then_get (key value other : string) (st : store) (r : done)
        (st' : store) :
  memorySet config key value o st = (inr r, st') ->
  sanitizeKey other = sanitizeKey key ->
  memoryGet config other o st' =
  (inr {| g_key := other; g_path := d_path r;
          g_content := Some value; g_error := None |}, st').
Proof.
  intros S K.
  destruct (resolve_cases OPENCLAW_DATA join3 resolve refuses config o)
    as [[e R] | [dir R]].
  - unfold Memory.memorySet, fs_bind in S. rewrite R in S. discriminate.
  - destruct (set_run _ _ _ _ _ _ _ R _ _ _ _ _ S) as [-> [-> [D _]]].
    assert (P : keyToPath dir other = keyToPath dir key)
      by (unfold keyToPath, filename; now rewrite K).
    erewrite get_present; [|exact R|].
    + rewrite P, lookup_update_same. reflexivity.
    + rewrite lookup_update_other
        by (apply not_eq_sym, keyToPath_not_dir).
      now rewrite D.
Qed.

(** X12. Setting, appending to or deleting a key leaves every key with a
    different file name as it was: [memoryGet] answers the same before and
    after, whether or not the operation went through. *)
Theorem other_keys_untouched (key other value iso : string) (st : store) :
  filename other <> filename key ->
  fst (memoryGet config other o (snd (memorySet config key value o st)))
  = fst (memoryGet config other o st) /\
  fst (memoryGet config other o
         (snd (memoryAppend config key value o iso st)))
  = fst (memoryGet config other o st) /\
  fst (memoryGet config other o (snd (memoryDelete config key o st)))
  = fst (memoryGet config other o st).
Proof.
  intros N.
  destruct (resolve_cases OPENCLAW_DATA join3 resolve refuses config o)
    as [[e R] | [dir R]].
  - unfold Memory.memorySet, Memory.memoryAppend, Memory.memoryDelete,
      fs_bind. rewrite !R. repeat split.
  - destruct (resolved_or_failed _ _ _ _ _ _ _ R st) as [[e E] | E].
    + unfold Memory.memorySet, Memory.memoryAppend, Memory.memoryDelete,
        fs_bind. rewrite !E. repeat split.
    + pose proof (other_path dir key other N) as P.
      assert (D : keyToPath dir other <> dir) by apply keyToPath_not_dir.
      assert (K : dir <> keyToPath dir key)
        by apply not_eq_sym, keyToPath_not_dir.
      pose proof (prepared_has_dir dir st) as H.
      pose proof (prepared_other dir (keyToPath dir other) st D) as Q.
      split; [|split]; eapply get_after; try exact R; try exact E.
      * destruct (set_store _ _ _ _ _ _ _ key value st E) as [-> | ->];
          rewrite ?lookup_update_other by exact K; exact H.
      * destruct (set_store _ _ _ _ _ _ _ key value st E) as [-> | ->];
          rewrite ?lookup_update_other by exact P; exact Q.
      * destruct (append_store _ _ _ _ _ _ _ key value iso st E)
          as [-> | [w ->]];
          rewrite ?lookup_update_other by exact K; exact H.
      * destruct (append_store _ _ _ _ _ _ _ key value iso st E)
          as [-> | [w ->]];
          rewrite ?lookup_update_other by exact P; exact Q.
      * rewrite (delete_run _ _ _ _ _ _ _ key st E).
        destruct (lookup (keyToPath dir key) st) as [[c|]|];
          try destruct (no_unlink refuses (keyToPath dir key)); cbn [snd];
          rewrite ?lookup_remove_other by exact K; exact H.
      * rewrite (delete_run _ _ _ _ _ _ _ key st E).
        destruct (lookup (keyToPath dir key) st) as [[c|]|];
          try destruct (no_unlink refuses (keyToPath dir key)); cbn [snd];
          rewrite ?lookup_remove_other by exact P; exact Q.
Qed.

(** X13. [memoryDelete] answers "deleted" exactly when a file was there and
    the system let it be removed; the key, and every key with the same
    sanitised form, then reads as not found.  In every other case (no file,
    a directory in its place, a file that could not be removed) the answer
    is "not found", nothing is thrown, and the key reads as it did before:
    a file that could not be removed is still there. *)
Theorem delete_then_get (key other : string) (st : store) (r : done)
        (st' : store) :
  memoryDelete config key o st = (inr r, st') ->
  sanitizeKey other = sanitizeKey key ->
  (d_action r = ActDeleted <->
   (exists c, lookup (d_path r) st = Some (File c)) /\
   no_unlink refuses (d_path r) = false) /\
  (d_action r = ActDeleted ->
   memoryGet config other o st' =
   (inr {| g_key := other; g_path := d_path r;
           g_content := None; g_error := Some "not found" |}, st')) /\
  (d_action r <> ActDeleted ->
   d_action r = ActNotFound /\
   fst (memoryGet config other o st') = fst (memoryGet config other o st)).
Proof.
  intros D K.
  destruct (resolve_cases OPENCLAW_DATA join3 resolve refuses config o)
    as [[e R] | [dir R]].
  - unfold Memory.memoryDelete, fs_bind in D. rewrite R in D. discriminate.
  - destruct (resolved_or_failed _ _ _ _ _ _ _ R st) as [[e E] | E].
    { unfold Memory.memoryDelete, fs_bind in D. rewrite E in D.
      discriminate. }
    assert (P : keyToPath dir other = keyToPath dir key)
      by (unfold keyToPath, filename; now rewrite K).
    assert (Q : keyToPath dir key <> dir) by apply keyToPath_not_dir.
    pose proof (prepared_has_dir dir st) as H.
    rewrite (delete_run _ _ _ _ _ _ _ key st E) in D.
    assert (G : lookup dir st' <> None ->
                lookup (keyToPath dir other) st'
                = lookup (keyToPath dir other) st ->
                fst (memoryGet config other o st')
                = fst (memoryGet config other o st))
      by (intros A B; eapply get_after; eauto).
    destruct (lookup (keyToPath dir key) st) as [[c|]|] eqn:L;
      [destruct (no_unlink refuses (keyToPath dir key)) eqn:U|..];
      injection D as <- <-; cbn [d_path d_action];
      (split; [|split]).
    + split; [discriminate | intros [_ F]; congruence].
    + discriminate.
    + intros _. split; [reflexivity|]. apply G; [exact H|].
      rewrite P. now apply prepared_other.
    + split; [intros _; split; [now exists c | exact U] | reflexivity].
    + intros _. erewrite get_present; [|exact R|].
      * now rewrite P, lookup_remove_same.
      * rewrite lookup_remove_other by (apply not_eq_sym; exact Q). exact H.
    + intros F. now contradiction F.
    + split; [discriminate | intros [[c' F] _]; congruence].
    + discriminate.
    + intros _. split; [reflexivity|]. apply G; [exact H|].
      rewrite P. now apply prepared_other.
    + split; [discriminate | intros [[c' F] _]; congruence].
    + discriminate.
    + intros _. split; [reflexivity|]. apply G; [exact H|].
      rewrite P. now apply prepared_other.
Qed.

Local Abbreviation stored :=
  (Memory.stored OPENCLAW_DATA join3 resolve refuses config o).

(** X14. [memoryAppend] never loses what was there.  The new content is the
    old content, then a line break if the old content is not empty and does
    not end with one, then an empty line, the heading "## " with the time
    stamp, an empty line, the value and a line break.  So every heading
    starts a line of its own, and the size reported is the length of the
    new content. *)
Theorem append_keeps_content (key value iso : string) (st : store) (r : done)
        (st' : store) :
  memoryAppend config key value o iso st = (inr r, st') ->
  exists sep,
    memoryGet config key o st' =
    (inr {| g_key := key; g_path := d_path r;
            g_content :=
              Some (stored key st ++ sep ++ String "010" "## "
                      ++ timestamp iso ++ String "010" (String "010" "")
                      ++ value ++ String "010" "");
            g_error := None |}, st') /\
    (sep = "" \/ sep = String "010" "") /\
    (stored key st = "" \/
     endsWith (stored key st ++ sep) (String "010" "") = true) /\
    d_size r =
    Some (String.length
            (stored key st ++ sep ++ String "010" "## "
               ++ timestamp iso ++ String "010" (String "010" "")
               ++ value ++ String "010" "")).
Proof.
  intros A.
  destruct (resolve_cases OPENCLAW_DATA join3 resolve refuses config o)
    as [[e R] | [dir R]].
  - unfold Memory.memoryAppend, fs_bind in A. rewrite R in A. discriminate.
  - destruct (append_run _ _ _ _ _ _ _ R _ _ _ _ _ _ A) as [-> [-> [D E]]].
    assert (S : stored key st = content_at (keyToPath dir key) st).
    { unfold Memory.stored, content_at.
      rewrite (get_run _ _ _ _ _ _ _ key st E).
      cbn [fst]. destruct (lookup (keyToPath dir key) st) as [[c|]|];
        reflexivity. }
    rewrite S. set (old := content_at (keyToPath dir key) st).
    exists (if truthy old && negb (endsWith old (String "010" ""))
            then String "010" "" else "").
    split; [|split; [|split]].
    + erewrite get_present; [|exact R|].
      * now rewrite lookup_update_same.
      * rewrite lookup_update_other
          by (apply not_eq_sym, keyToPath_not_dir).
        now rewrite D.
    + destruct (truthy old && negb (endsWith old (String "010" ""))); auto.
    + destruct old as [|c old'] eqn:O; [now left | right].
      cbn [truthy String.eqb negb andb].
      destruct (endsWith (String c old') (String "010" "")) eqn:F.
      * cbn [negb]. now rewrite append_empty_r.
      * cbn [negb]. apply endsWith_append.
    + reflexivity.
Qed.


Lemma list_run (dir : string) (st : store) :
  resolveMemoryDir config o st = (inr dir, prepared dir st) ->
  memoryList config o st =
  (inr match lookup dir (prepared dir st) with
       | Some Directory =>
           map (entry_of dir (prepared dir st))
             (filter (fun f => endsWith f ".md")
                (children dir (prepared dir st)))
       | _ => []
       end, prepared dir st).
Proof.
  intros R. unfold Memory.memoryList, fs_bind, fs_catch, readdirSync, fs_ret.
  rewrite R. destruct (lookup dir (prepared dir st)) as [[c|]|];
    try reflexivity.
  now rewrite list_entries_run.
Qed.

(** X15. After [memorySet] went through, [memoryList] shows the file: one
    of its entries has the path that was written, the file name without
    ".md" as its key, and the length of the value as its size. *)
Theorem list_after_set (key value : string) (st : store) (r : done)
        (st' : store) :
  memorySet config key value o st = (inr r, st') ->
  exists l,
    memoryList config o st' = (inr l, st') /\
    In {| l_key := strip_md (filename key); l_path := d_path r;
          l_size := String.length value |} l.
Proof.
  intros S.
  destruct (resolve_cases OPENCLAW_DATA join3 resolve refuses config o)
    as [[e R] | [dir R]].
  - unfold Memory.memorySet, fs_bind in S. rewrite R in S. discriminate.
  - destruct (set_run _ _ _ _ _ _ _ R _ _ _ _ _ S) as [-> [-> [D _]]].
    set (st1 := update (keyToPath dir key) (File value) (prepared dir st)).
    assert (D1 : lookup dir st1 = Some Directory).
    { unfold st1.
      rewrite lookup_update_other by (apply not_eq_sym, keyToPath_not_dir).
      exact D. }
    assert (P : prepared dir st1 = st1)
      by (apply prepared_done; now rewrite D1).
    assert (R1 : resolveMemoryDir config o st1 = (inr dir, prepared dir st1)).
    { apply (resolved_present _ _ _ _ _ _ _ R). now rewrite D1. }
    rewrite (list_run dir st1 R1), P, D1. eexists. split; [reflexivity|].
    cbn [d_path].
    replace {| l_key := strip_md (filename key);
               l_path := keyToPath dir key;
               l_size := String.length value |}
      with (entry_of dir st1 (filename key)).
    + apply in_map, filter_In. split; [|apply filename_ends_md].
      apply children_complete
        with (p := keyToPath dir key) (n := File value).
      * apply In_update.
      * apply child_name_join;
          [apply filename_nonempty | apply filename_is_plain].
    + unfold entry_of. fold (keyToPath dir key). unfold st1.
      now rewrite lookup_update_same.
Qed.

(** X16. What [memoryList] shows can be read back under the listed key,
    provided the key is in sanitised form and does not itself end in ".md":
    [memoryGet] then looks at the listed path, and the listed size is the
    length of what it reads.  (A file called "a.md.md" is listed under the
    key "a.md", which [memoryGet] takes for the file "a.md".) *)
Theorem listed_keys_resolve (st : store) (l : list listed) (st' : store)
        (e : listed) (g : got) :
  memoryList config o st = (inr l, st') ->
  In e l ->
  sanitizeKey (l_key e) = l_key e ->
  endsWith (l_key e) ".md" = false ->
  fst (memoryGet config (l_key e) o st') = inr g ->
  g_path g = l_path e /\
  (forall c, g_content g = Some c -> l_size e = String.length c).
Proof.
  intros L I K N G.
  destruct (resolve_cases OPENCLAW_DATA join3 resolve refuses config o)
    as [[x R] | [dir R]].
  - unfold Memory.memoryList, fs_bind in L. rewrite R in L. discriminate.
  - destruct (resolved_or_failed _ _ _ _ _ _ _ R st) as [[x E] | E].
    { unfold Memory.memoryList, fs_bind in L. rewrite E in L.
      discriminate. }
    rewrite (list_run dir st E) in L. injection L as <- <-.
    rewrite (get_present _ _ _ _ _ _ _ R) in G by apply prepared_has_dir.
    cbn [fst] in G.
    destruct (lookup dir (prepared dir st)) as [[c|]|]; try contradiction.
    apply in_map_iff in I. destruct I as [name [<- I]].
    apply filter_In in I. destruct I as [_ M].
    cbn [entry_of l_key l_path l_size] in *.
    assert (F : filename (strip_md name) = name).
    { unfold filename. rewrite K, N. now apply strip_md_append. }
    unfold keyToPath in G. rewrite F in G.
    destruct (lookup (join dir name) (prepared dir st)) as [[c|]|];
      injection G as <-; cbn [g_path g_content];
      (split; [reflexivity|]); intros c' C; try discriminate.
    now injection C as <-.
Qed.

End Operations.

Lemma set_then_get_witness :
  Memory.memoryGet "/data" Demo.join3 Demo.resolve Demo.willing None "a/b"
    Demo.local Demo.one_note
  = (inr {| g_key := "a/b"; g_path := "/cwd/memory/a-b.md";
            g_content := Some "hello"; g_error := None |}, Demo.one_note).
Proof.
  exact (set_then_get "/data" Demo.join3 Demo.resolve Demo.willing None
           Demo.local "a b" "hello" "a/b" [] _ _ eq_refl eq_refl).
Defined.

Lemma other_keys_untouched_witness :
  fst (Memory.memoryGet "/data" Demo.join3 Demo.resolve Demo.willing None
         "a b" Demo.local
         (snd (Memory.memoryDelete "/data" Demo.join3 Demo.resolve
                 Demo.willing None "todo" Demo.local Demo.one_note)))
  = fst (Memory.memoryGet "/data" Demo.join3 Demo.resolve Demo.willing None
           "a b" Demo.local Demo.one_note).
Proof.
  refine (proj2 (proj2 (other_keys_untouched "/data" Demo.join3 Demo.resolve
                          Demo.willing None Demo.local "todo" "a b" "" ""
                          Demo.one_note _))).
  vm_compute. discriminate.
Defined.

Lemma delete_then_get_witness :
  Memory.memoryGet "/data" Demo.join3 Demo.resolve Demo.willing None "a/b"
    Demo.local [("/cwd/memory", Directory)]
  = (inr {| g_key := "a/b"; g_path := "/cwd/memory/a-b.md";
            g_content := None; g_error := Some "not found" |},
     [("/cwd/memory", Directory)]) /\
  fst (Memory.memoryGet "/data" Demo.join3 Demo.resolve Demo.keeps_files None
         "a/b" Demo.local Demo.one_note)
  = inr {| g_key := "a/b"; g_path := "/cwd/memory/a-b.md";
           g_content := Some "hello"; g_error := None |}.
Proof.
  split.
  - refine (proj1 (proj2 (delete_then_get "/data" Demo.join3 Demo.resolve
                            Demo.willing None Demo.local "a b" "a/b"
                            Demo.one_note _ _ eq_refl eq_refl)) eq_refl).
  - refine (proj2 (proj2 (proj2 (delete_then_get "/data" Demo.join3
                                   Demo.resolve Demo.keeps_files None
                                   Demo.local "a b" "a/b" Demo.one_note _ _
                                   eq_refl eq_refl)) _)).
    discriminate.
Defined.

Lemma append_keeps_content_witness :
  exists sep,
    (sep = "" \/ sep = String "010" "") /\
    (Memory.stored "/data" Demo.join3 Demo.resolve Demo.willing None
       Demo.local "a b" Demo.one_note = "" \/
     endsWith
       (Memory.stored "/data" Demo.join3 Demo.resolve Demo.willing None
          Demo.local "a b" Demo.one_note ++ sep) (String "010" "") = true).
Proof.
  destruct (append_keeps_content "/data" Demo.join3 Demo.resolve Demo.willing
              None Demo.local "a b" "more" "2026-03-01T10:20:30.123Z"
              Demo.one_note _ _ eq_refl) as [sep [_ [S [E _]]]].
  exists sep. split; [exact S | exact E].
Defined.

Lemma list_after_set_witness :
  exists l,
    Memory.memoryList "/data" Demo.join3 Demo.resolve Demo.willing None
      Demo.local Demo.one_note = (inr l, Demo.one_note) /\
    In {| l_key := "a-b"; l_path := "/cwd/memory/a-b.md"; l_size := 5 |} l.
Proof.
  exact (list_after_set "/data" Demo.join3 Demo.resolve Demo.willing None
           Demo.local "a b" "hello" [] _ _ eq_refl).
Defined.

Lemma listed_keys_resolve_witness :
  "/cwd/memory/a-b.md" = "/cwd/memory/a-b.md" /\
  (forall c, Some "hello" = Some c -> 5 = String.length c).
Proof.
  exact (listed_keys_resolve "/data" Demo.join3 Demo.resolve Demo.willing
           None Demo.local Demo.one_note _ _
           {| l_key := "a-b"; l_path := "/cwd/memory/a-b.md"; l_size := 5 |}
           {| g_key := "a-b"; g_path := "/cwd/memory/a-b.md";
              g_content := Some "hello"; g_error := None |}
           eq_refl (or_introl eq_refl) eq_refl eq_refl eq_refl).
Defined.


(** A regular file where the directory needs a parent: nothing is made. *)
Example resolveMemoryDir_under_file :
  Memory.resolveMemoryDir "/data" Demo.join3 Demo.resolve Demo.willing None
    Demo.local [("/cwd", File "")]
  = (inl (Error "ENOTDIR"), [("/cwd", File "")]).
Proof. reflexivity. Qed.

End MemoryFacts.

(** * Command lines *)

Module CliFacts.

Import Cli.

Section Minimal.

Variable number : Type.
Variable parseInt : string -> number.
Variable thirty : number.

Local Abbreviation settings := (Cli.settings number).
Local Abbreviation assign := (Cli.assign number parseInt).
Local Abbreviation take := (Cli.take number parseInt).
Local Abbreviation iteration := (Cli.iteration number parseInt).
Local Abbreviation rounds := (Cli.rounds number parseInt).
Local Abbreviation parseArgs := (Cli.parseArgs number parseInt thirty).
Local Abbreviation defaults := (Cli.defaults number thirty).

Lemma take_length (f : opt) (st : list string * settings) :
  length (fst (take f st)) <= length (fst st) /\
  (fst st <> [] -> fst (take f st) <> []).
Proof.
  unfold Cli.take. destruct st as [[|a [|v l]] c]; simpl; auto.
  destruct ((a =? flag f) && truthy v); simpl; split; auto; discriminate.
Qed.

Lemma iteration_shrinks (st : list string * settings) :
  fst st <> [] -> length (fst (iteration st)) < length (fst st).
Proof.
  intros N. unfold Cli.iteration. cbn [fst].
  pose proof (take_length Rooms st) as [L1 N1].
  pose proof (take_length ApiKey (take Rooms st)) as [L2 N2].
  pose proof (take_length Handle (take ApiKey (take Rooms st))) as [L3 N3].
  pose proof (take_length Interval
                (take Handle (take ApiKey (take Rooms st)))) as [L4 N4].
  destruct (fst (take Interval (take Handle (take ApiKey (take Rooms st)))))
    as [|x l] eqn:E.
  - exfalso. apply N4; auto.
  - simpl in *. lia.
Qed.

(** More rounds than arguments change nothing: the loop has stopped. *)
Lemma rounds_enough (n m : nat) (st : list string * settings) :
  length (fst st) <= n -> length (fst st) <= m -> rounds n st = rounds m st.
Proof.
  revert m st. induction n as [|n IH]; intros m [l c] Ln Lm.
  - destruct l; [|simpl in Ln; lia]. destruct m; reflexivity.
  - destruct l as [|a l]; [destruct m; reflexivity|].
    destruct m as [|m]; [simpl in Lm; lia|].
    cbn [Cli.rounds fst].
    pose proof (iteration_shrinks (a :: l, c)) as S.
    cbn [fst length] in *.
    assert (N : a :: l <> []) by discriminate. specialize (S N).
    apply IH; lia.
Qed.

Lemma take_hit (f : opt) (v : string) (l : list string) (c : settings) :
  truthy v = true ->
  take f (flag f :: v :: l, c) = (v :: l, assign f v c).
Proof.
  intros T. unfold Cli.take. cbn [fst snd].
  now rewrite String.eqb_refl, T.
Qed.

Lemma take_miss (g : opt) (a : string) (l : list string) (c : settings) :
  (a =? flag g) = false -> take g (a :: l, c) = (a :: l, c).
Proof.
  intros N. unfold Cli.take. cbn [fst snd].
  destruct l; [reflexivity|]. now rewrite N.
Qed.

Lemma iteration_pair (f : opt) (v : string) (rest : list string)
      (c : settings) :
  truthy v = true -> is_flag v = false ->
  iteration (flag f :: v :: rest, c) = (rest, assign f v c).
Proof.
  intros T F. unfold is_flag in F.
  apply orb_false_iff in F. destruct F as [F F4].
  apply orb_false_iff in F. destruct F as [F F3].
  apply orb_false_iff in F. destruct F as [F1 F2].
  unfold Cli.iteration.
  destruct f;
    repeat first
      [ rewrite take_hit by exact T
      | rewrite take_miss by (cbn [flag]; first [reflexivity | assumption]) ];
    reflexivity.
Qed.

Lemma iteration_tail (tail : list string) (c : settings) :
  (tail = [] \/ (exists f, tail = [flag f]) \/
   (exists f, tail = [flag f; ""])) ->
  forall n, rounds n (tail, c) = c.
Proof.
  intros [-> | [[f ->] | [f ->]]] n.
  - destruct n; reflexivity.
  - destruct n as [|[|n]]; destruct f; reflexivity.
  - destruct n as [|[|[|n]]]; destruct f; reflexivity.
Qed.

Lemma rounds_pairs (pairs : list (opt * string)) (tail : list string) :
  (forall f v, In (f, v) pairs -> truthy v = true /\ is_flag v = false) ->
  (tail = [] \/ (exists f, tail = [flag f]) \/
   (exists f, tail = [flag f; ""])) ->
  forall n c,
  length (render pairs ++ tail) <= n ->
  rounds n (render pairs ++ tail, c)
  = fold_left (fun c fv => assign (fst fv) (snd fv) c) pairs c.
Proof.
  intros W T. induction pairs as [|[f v] pairs IH]; intros n c L.
  - simpl. now apply iteration_tail.
  - destruct (W f v (or_introl eq_refl)) as [Tv Fv].
    destruct n as [|n]; [simpl in L; lia|].
    cbn [render app fold_left fst snd Cli.rounds].
    rewrite (iteration_pair f v _ c Tv Fv).
    apply IH.
    + intros g w I. apply (W g w). now right.
    + simpl in L. lia.
Qed.

(** X18. On a command line made of options with non-empty values that are
    not themselves option names, the minimal poller gives each setting the
    last value written for it (the defaults where none is), removes the
    first "@" of a handle, and ignores an option that comes last without a
    value or with an empty one. *)
Theorem parseArgs_pairs (pairs : list (opt * string)) (tail : list string) :
  (forall f v, In (f, v) pairs -> truthy v = true /\ is_flag v = false) ->
  (tail = [] \/ (exists f, tail = [flag f]) \/
   (exists f, tail = [flag f; ""])) ->
  parseArgs (render pairs ++ tail)
  = fold_left (fun c fv => assign (fst fv) (snd fv) c) pairs defaults.
Proof.
  intros W T. unfold Cli.parseArgs. now apply rounds_pairs.
Qed.

End Minimal.

Lemma parseArgs_pairs_witness :
  Cli.parseArgs (option nat)
    (fun v => if v =? "8" then Some 8 else None) (Some 30)
    ["--handle"; "me"; "--interval"; "8"; "--handle"; "@bot"; "--rooms"]
  = {| rooms := "083b04cb-a227-44f1-8257-7db779d988f1"; apiKey := "";
       handle := "bot"; interval := Some 8 |}.
Proof.
  refine (parseArgs_pairs (option nat)
            (fun v => if v =? "8" then Some 8 else None) (Some 30)
            [(Handle, "me"); (Interval, "8"); (Handle, "@bot")]
            ["--rooms"] _ _).
  - intros f v [E | [E | [E | []]]]; injection E as <- <-; split; reflexivity.
  - right. left. exists Rooms. reflexivity.
Defined.

(** ** The unified poller *)

Lemma indexOf_none (x : string) (args : list string) :
  indexOf x args = None <-> ~ In x args.
Proof.
  induction args as [|a args IH]; simpl; [tauto|].
  destruct (a =? x) eqn:E.
  - apply String.eqb_eq in E. split; [discriminate | intros N; tauto].
  - apply String.eqb_neq in E. destruct (indexOf x args).
    + split; [discriminate|]. intros N. exfalso.
      assert (M : ~ In x args) by tauto. apply IH in M. discriminate.
    + split; [|reflexivity]. intros _ [F | I]; [contradiction|].
      now apply IH.
Qed.

Lemma indexOf_first (x : string) (pre post : list string) :
  ~ In x pre -> indexOf x (pre ++ x :: post) = Some (length pre).
Proof.
  induction pre as [|a pre IH]; simpl; intros N.
  - now rewrite String.eqb_refl.
  - destruct (a =? x) eqn:E.
    + apply String.eqb_eq in E. tauto.
    + rewrite IH by tauto. reflexivity.
Qed.

Lemma nth_after (pre : list string) (x : string) (post : list string) :
  nth_error (pre ++ x :: post) (length pre + 1) = nth_error post 0.
Proof.
  induction pre as [|a pre IH]; simpl; [reflexivity | exact IH].
Qed.

Lemma lower_ascii_ascii (c : ascii) :
  is_ascii c = true -> is_ascii (lower_ascii c) = true.
Proof.
  destruct c as [[] [] [] [] [] [] [] []]; intros E;
    first [exact E | reflexivity].
Qed.

Lemma toLowerCase_ascii (s : string) :
  ascii_only s = true -> ascii_only (toLowerCase s) = true.
Proof.
  induction s as [|c s IH]; simpl; [reflexivity|].
  intros E. apply andb_true_iff in E. destruct E as [C E].
  now rewrite lower_ascii_ascii, IH.
Qed.

(** X19. The unified poller prints its usage and exits exactly when
    "--session" or "--handle" is missing.  Otherwise it takes the argument
    after the first "--handle" (not the last, unlike the minimal poller)
    and lower-cases it: for an argument of ASCII characters the handle is
    that argument with [A]..[Z] replaced by [a]..[z], a string that
    lower-casing leaves alone.  When the first "--handle" is the last
    argument it dies of a type error. *)
Theorem unified_start_cases (args : list string) :
  (unified_start args = Usage <->
   ~ In "--session" args \/ ~ In "--handle" args) /\
  (forall pre v post,
     args = pre ++ "--handle" :: v :: post -> ~ In "--handle" pre ->
     In "--session" args ->
     ascii_only v = true ->
     exists t,
       unified_start args = Started t (toLowerCase v) /\
       ascii_only (toLowerCase v) = true /\
       toLowerCase (toLowerCase v) = toLowerCase v) /\
  (forall pre,
     args = pre ++ ["--handle"] -> ~ In "--handle" pre ->
     In "--session" args ->
     unified_start args = TypeError).
Proof.
  unfold unified_start. split; [|split].
  - destruct (indexOf "--session" args) as [i|] eqn:S.
    + destruct (indexOf "--handle" args) as [j|] eqn:H.
      * assert (IS : In "--session" args).
        { destruct (in_dec string_dec "--session" args) as [I | N]; auto.
          apply indexOf_none in N. congruence. }
        assert (IH : In "--handle" args).
        { destruct (in_dec string_dec "--handle" args) as [I | N]; auto.
          apply indexOf_none in N. congruence. }
        destruct (nth_error args (j + 1)); split; try discriminate; tauto.
      * apply indexOf_none in H. split; auto.
    + apply indexOf_none in S. split; auto.
  - intros pre v post -> N I A.
    destruct (indexOf "--session" (pre ++ "--handle" :: v :: post)) eqn:S.
    + rewrite indexOf_first, nth_after by exact N. simpl.
      eexists. split; [reflexivity|].
      split; [now apply toLowerCase_ascii | apply toLowerCase_idem].
    + apply indexOf_none in S. contradiction.
  - intros pre -> N I.
    destruct (indexOf "--session" (pre ++ ["--handle"])) eqn:S.
    + rewrite indexOf_first, nth_after by exact N. reflexivity.
    + apply indexOf_none in S. contradiction.
Qed.

Lemma unified_start_cases_witness :
  (exists t,
     unified_start ["--handle"; "Bot"; "--session"; "x"; "--handle"; "other"]
     = Started t "bot") /\
  unified_start ["--session"; "x"; "--handle"] = TypeError.
Proof.
  split.
  - destruct (proj1 (proj2 (unified_start_cases
                              ["--handle"; "Bot"; "--session"; "x";
                               "--handle"; "other"])) [] "Bot"
                ["--session"; "x"; "--handle"; "other"]) as [t [E _]].
    + reflexivity.
    + simpl. tauto.
    + simpl. tauto.
    + reflexivity.
    + exists t. exact E.
  - apply (proj2 (proj2 (unified_start_cases _)) ["--session"; "x"]).
    + reflexivity.
    + simpl. intros [E | [E | []]]; discriminate.
    + simpl. tauto.
Defined.

End CliFacts.

(** * The gateway clients *)

Module GatewayFacts.

Import Gateway.

Local Open Scope string_scope.

Lemma truthy_nonempty (s : string) : truthy s = true <-> s <> "".
Proof.
  unfold truthy. rewrite negb_true_iff. split.
  - intros E ->. discriminate.
  - intros N. now apply String.eqb_neq.
Qed.

Lemma pick_string_first (a b : option string) (d s : string) :
  a = Some s -> s <> "" -> pick_string a b d = s.
Proof.
  intros -> N. unfold pick_string. apply truthy_nonempty in N.
  now rewrite N.
Qed.

Lemma pick_string_usable (a b : option string) (d : string) :
  d <> "" -> pick_string a b d <> "".
Proof.
  intros D. unfold pick_string.
  destruct a as [s|]; [destruct (truthy s) eqn:S|];
    try (now apply truthy_nonempty);
    destruct b as [s'|]; try exact D;
    destruct (truthy s') eqn:S'; try exact D; now apply truthy_nonempty.
Qed.

Lemma or_number_usable (x : option N) (d : N) :
  d <> 0%N -> or_number x d <> 0%N.
Proof.
  intros D. unfold or_number. destruct x as [n|]; [|exact D].
  destruct (n =? 0)%N eqn:E; [exact D | now apply N.eqb_neq].
Qed.

(** X20. [resolveGateway] always gives a host that is not empty and a port
    that is not 0, whatever the options and the configuration hold; an
    option that is given and not empty (not 0) is the one that is used.
    The token is the only field that can come out empty. *)
Theorem resolveGateway_usable (config : option overrides)
        (options : overrides) :
  host (resolveGateway config options) <> "" /\
  port (resolveGateway config options) <> 0%N /\
  (forall h, o_host options = Some h -> h <> "" ->
             host (resolveGateway config options) = h) /\
  (forall n, o_port options = Some n -> n <> 0%N ->
             port (resolveGateway config options) = n) /\
  (forall t, o_token options = Some t -> t <> "" ->
             token (resolveGateway config options) = t).
Proof.
  unfold resolveGateway. cbn [host port token]. repeat split.
  - apply pick_string_usable. discriminate.
  - apply or_number_usable, or_number_usable. discriminate.
  - intros h E N. now apply pick_string_first.
  - intros n E N. unfold pick_number, or_number at 1. rewrite E.
    apply N.eqb_neq in N. now rewrite N.
  - intros t E N. now apply pick_string_first.
Qed.

Lemma resolveGateway_usable_witness :
  let options := {| o_host := Some ""; o_port := Some 8080%N;
                    o_token := Some "s3cret" |} in
  port (resolveGateway None options) = 8080%N /\
  token (resolveGateway None options) = "s3cret".
Proof.
  intros options.
  destruct (resolveGateway_usable None options) as [_ [_ [_ [P T]]]].
  split; [apply P | apply T]; try reflexivity; discriminate.
Defined.

Lemma sh_word_inside (body : string) :
  sh_word true (escape body ++ String quote "") = Some body.
Proof.
  induction body as [|c body IH]; [reflexivity|].
  cbn [escape]. destruct (Ascii.eqb c quote) eqn:E.
  - apply Ascii.eqb_eq in E. subst c. cbn. cbn in IH. now rewrite IH.
  - change (String c (escape body) ++ String quote "")
      with (String c (escape body ++ String quote "")).
    cbn [sh_word]. rewrite E, IH. reflexivity.
Qed.

(** X21. The body of a request survives the shell.  Read by the quoting
    rules of a POSIX shell, the word that [rpc] and [gwFetch] build from a
    body (a quote, the body with every quote replaced by quote, backslash,
    quote, quote, and a quote) is that body again, whatever characters it
    holds. *)
Theorem body_survives_the_shell (body : string) :
  sh_word false (quoted body) = Some body /\
  bodyArg body = "-d " ++ quoted body.
Proof.
  split; [|reflexivity]. unfold quoted. cbn [sh_word].
  change (Ascii.eqb quote quote) with true. cbv iota.
  apply sh_word_inside.
Qed.

End GatewayFacts.
